(** * ast_visitor_1: the threaded global-variable lister

    A shallow embedding of [slides/examples/ast_visitor_1/main.cpp]:
    the consumer that renders one line per translation unit, the
    partition of the source list into [kThreadsCount] contiguous chunks,
    the worker threads writing to private files, the join loop and the
    final [cat ... | sort] that unites the files.

    External collaborators are taken at their interface: the Clang
    front end is an oracle giving, for each source path, the names the
    visitor collects; [std::sort], [std::thread] and the shell utilities
    are modelled by their contracts. *)

From Stdlib Require Import ZArith List Ascii String Lia Bool.
From stdpp Require Import base list sorting strings.

Local Open Scope Z_scope.

(** Byte strings ([std::string]) are lists of 8-bit characters. *)
Abbreviation str := (list ascii).

Definition lit (s : string) : str := list_ascii_of_string s.

(** ** Machine integers *)

Module Int.
Definition INT_MAX : Z := 2 ^ 31 - 1.
(** Conversion to a 32-bit [int]: modular. *)
Definition to_int (z : Z) : Z := (z + 2 ^ 31) mod 2 ^ 32 - 2 ^ 31.
(** Conversion to a 64-bit [size_t]: modular. *)
Definition to_size_t (z : Z) : Z := z mod 2 ^ 64.
(** [std::string::npos], the largest [size_t]. *)
Definition npos : Z := 2 ^ 64 - 1.
End Int.

(** ** Characters *)

Definition byte_val (c : ascii) : Z := Z.of_N (N_of_ascii c).

(** Promotion of a plain [char] to [int]; the signedness of plain [char]
    is fixed by the target ABI, so it is a parameter. *)
Definition char_val (char_is_signed : bool) (c : ascii) : Z :=
  if char_is_signed && (128 <=? byte_val c) then byte_val c - 256
  else byte_val c.

(** [std::tolower] in the "C" locale (the program never calls
    [setlocale]): only 'A'..'Z' are mapped. *)
Definition tolower (c : Z) : Z :=
  if (65 <=? c) && (c <=? 90) then c + 32 else c.

(** The case-folded image of a name: what the comparator looks at. *)
Definition casefold (char_is_signed : bool) (a : str) : list Z :=
  (λ c, tolower (char_val char_is_signed c)) <$> a.

(** Lexicographic order on sequences of character values: the first
    position where the two differ decides; when one runs out first, the
    shorter one is smaller. *)
Inductive lex_lt : list Z → list Z → Prop :=
  | lex_lt_shorter y b : lex_lt [] (y :: b)
  | lex_lt_differ x y a b : x < y → lex_lt (x :: a) (y :: b)
  | lex_lt_common x a b : lex_lt a b → lex_lt (x :: a) (x :: b).

(** Case-insensitive lexicographic order on names. *)
Definition caseless_lt (char_is_signed : bool) (a b : str) : Prop :=
  lex_lt (casefold char_is_signed a) (casefold char_is_signed b).

(** ** [MyAstConsumer] *)

Module MyAstConsumer.

(** [std::string::rfind(char)]: index of the last occurrence, [npos]
    when there is none. *)
Fixpoint rfind_from (c : ascii) (s : str) (i found : Z) : Z :=
  match s with
  | [] => found
  | x :: s' => rfind_from c s' (i + 1) (if Ascii.eqb x c then i else found)
  end.

Definition rfind (c : ascii) (s : str) : Z := rfind_from c s 0 Int.npos.

(** [std::string::substr(pos)]: throws [std::out_of_range] ([None])
    when [pos > size()]. *)
Definition substr (s : str) (pos : Z) : option str :=
  if pos <=? Z.of_nat (length s) then Some (drop (Z.to_nat pos) s) else None.

(** The constructor: the value of the member [filename_].
    [last_slash_pos] is an [int]; in [last_slash_pos != npos] it is
    converted to [size_t]. *)
Definition ctor (filename : str) : option str :=
  let last_slash_pos := Int.to_int (rfind "/"%char filename) in
  if negb (Int.to_size_t last_slash_pos =? Int.npos) then
    substr filename (Int.to_size_t (Int.to_int (last_slash_pos + 1)))
  else Some filename.

(** The comparator lambda handed to [std::sort]: the loop walks both
    strings in lockstep while both have a character left, then falls
    back to [a.size() < b.size()]. *)
Fixpoint names_lt_loop (sgn : bool) (size_a size_b : Z) (a b : str) : bool :=
  match a, b with
  | x :: a', y :: b' =>
      if negb (tolower (char_val sgn x) =? tolower (char_val sgn y))
      then tolower (char_val sgn x) <? tolower (char_val sgn y)
      else names_lt_loop sgn size_a size_b a' b'
  | _, _ => size_a <? size_b
  end.

Definition names_lt (sgn : bool) (a b : str) : bool :=
  names_lt_loop sgn (Z.of_nat (length a)) (Z.of_nat (length b)) a b.

(** [a] may stand before [b] in a range sorted by [names_lt]. *)
Definition names_le (sgn : bool) (a b : str) : Prop :=
  names_lt sgn b a = false.

#[global] Instance names_le_dec sgn : RelDecision (names_le sgn) :=
  λ a b, decide (names_lt sgn b a = false).

(** [std::sort(first, last, comp)]: some permutation of the range in
    which no element is [comp]-smaller than an earlier one; realised
    by a merge sort. *)
Definition std_sort (sgn : bool) (names : list str) : list str :=
  merge_sort (names_le sgn) names.

(** [flushToFile]: the bytes appended to [*out]. *)
Definition flushToFile (sgn : bool) (filename_ : str) (names : list str) : str :=
  let names := std_sort sgn names in
  filename_ ++ flat_map (λ n, " "%char :: n) names ++ ["010"%char].

End MyAstConsumer.


(** ** The partition computed in [main] *)

Section Partition.
Context {A : Type}.

(** [static_cast<int>(sources.size()) / kThreadsCount]; [/] on [int]
    truncates towards zero. *)
Definition chunk_size (K : Z) (sources : list A) : Z :=
  Z.quot (Int.to_int (Z.of_nat (length sources))) K.

Definition begin_index (K : Z) (sources : list A) (i : Z) : Z :=
  Int.to_int (i * chunk_size K sources).

Definition end_index (K : Z) (sources : list A) (i : Z) : Z :=
  if i =? K - 1 then Int.to_int (Z.of_nat (length sources))
  else Int.to_int ((i + 1) * chunk_size K sources).

(** The range constructor [vec(sources.begin() + b, sources.begin() + e)].
    Iterators outside the vector are undefined behaviour in the source;
    the results below keep the indices inside it. *)
Definition range (sources : list A) (b e : Z) : list A :=
  take (Z.to_nat (e - b)) (drop (Z.to_nat b) sources).

(** The vector handed to thread [i]. *)
Definition shard (K : Z) (sources : list A) (i : Z) : list A :=
  range sources (begin_index K sources i) (end_index K sources i).

(** All vectors, in the order of the spawning loop. *)
Definition shards (K : Z) (sources : list A) : list (list A) :=
  shard K sources <$> seqZ 0 K.
End Partition.

Definition kThreadsCount : Z := 4.

(** ** The shell command [cat ... | sort > output.txt] *)

Module Shell.

Definition nl : ascii := "010"%char.

(** The lines of a byte stream: each newline ends a line; a last line
    without newline counts. *)
Fixpoint lines (s : str) : list str :=
  match s with
  | [] => []
  | c :: s' =>
      if Ascii.eqb c nl then [] :: lines s'
      else match lines s' with
           | [] => [[c]]
           | l :: ls => (c :: l) :: ls
           end
  end.

Definition unlines (ls : list str) : str := flat_map (λ l, l ++ [nl]) ls.

(** Byte-wise comparison of two lines: the first differing byte decides
    (bytes as unsigned values), a proper prefix comes first. *)
Fixpoint bytes_leb (a b : str) : bool :=
  match a, b with
  | [], _ => true
  | _ :: _, [] => false
  | x :: a', y :: b' =>
      if byte_val x <? byte_val y then true
      else if byte_val y <? byte_val x then false
      else bytes_leb a' b'
  end.

Definition bytes_le (a b : str) : Prop := bytes_leb a b = true.

#[global] Instance bytes_le_dec : RelDecision bytes_le :=
  λ a b, decide (bytes_leb a b = true).

(** [cat f0 f1 ...]: the files one after the other. *)
Definition cat (files : list str) : str := concat files.

(** Modelled from the spec: the [sort] utility that [main] reaches
    through [system] is not part of the sources. Following the
    specification it orders whole lines by pure byte-wise
    lexicographic comparison (no locale collation) and writes every
    line back with its newline. *)
Definition sort (input : str) : str :=
  unlines (merge_sort bytes_le (lines input)).

End Shell.

(** ** Workers and the main thread *)

(** What the run depends on besides the source list: the signedness of
    plain [char], the names [MyAstVisitor] collects for a source (or
    [None] when the front end never hands the unit to the consumer), and
    the status [ClangTool::run] returns for a vector of sources. *)
Record env := Env {
  char_is_signed : bool;
  analyze : str → option (list str);
  tool_status : list str → Z;
}.

(** One unit inside [tool.run]: the consumer is constructed with the
    unit's file name and [HandleTranslationUnit] flushes its line.
    [None] is the exception escaping from [substr]. *)
Definition unit_output (e : env) (u : str) : option str :=
  match analyze e u with
  | None => Some []
  | Some names =>
      match MyAstConsumer.ctor u with
      | Some filename_ =>
          Some (MyAstConsumer.flushToFile (char_is_signed e) filename_ names)
      | None => None
      end
  end.

Definition unit_bytes (e : env) (u : str) : str :=
  default [] (unit_output e u).

(** Everything [run_tool] writes to its stream for a vector of sources. *)
Definition run_tool_bytes (e : env) (sources : list str) : str :=
  flat_map (unit_bytes e) sources.

(** A thread running [run_tool]: its private copy of the sources, the
    sources not processed yet, the bytes given to its own stream so far
    and whether [run_tool] has returned. *)
Record thread := Thread {
  vec : list str;
  todo : list str;
  sink : str;
  finished : bool;
}.

(** Where the main thread stands: in the spawning loop with counter [i],
    in the join loop at thread [j], about to run the shell command,
    returned from [main] with a status; [Terminated] is
    [std::terminate] after an exception escaped a thread. *)
Inductive pc :=
  | Spawning (i : Z)
  | Joining (j : nat)
  | Uniting
  | Returned (status : Z)
  | Terminated.

(** [threads] is the vector [threads]; thread [i] owns the file
    [threaded_output_<i>.txt], so [filenames_in_line] lists the sinks in
    index order. [log] collects the statuses printed on [llvm::outs()];
    [output_txt] is the content of [output.txt] once written. *)
Record state := State {
  main_pc : pc;
  threads : list thread;
  log : list Z;
  output_txt : option str;
}.

Inductive actor := Main | Worker (t : nat).

(** A thread as the spawning loop creates it, and as it is once
    [run_tool] has returned. *)
Definition spawned (v : list str) : thread := Thread v v [] false.

Definition returned (e : env) (v : list str) : thread :=
  Thread v [] (run_tool_bytes e v) true.

Definition set_pc (p : pc) (s : state) : state :=
  State p (threads s) (log s) (output_txt s).

Definition step_main (K : Z) (sources : list str) (s : state) : state :=
  match main_pc s with
  | Spawning i =>
      if i <? K then
        State (Spawning (i + 1))
              (threads s ++ [spawned (shard K sources i)])
              (log s) (output_txt s)
      else set_pc (Joining 0) s
  | Joining j =>
      match threads s !! j with
      | Some th => if finished th then set_pc (Joining (S j)) s else s
      | None => set_pc Uniting s
      end
  | Uniting =>
      State (Returned 0) (threads s) (log s)
            (Some (Shell.sort (Shell.cat (sink <$> threads s))))
  | Returned _ | Terminated => s
  end.

(** The process is over: [main] has returned or [std::terminate] ran. *)
Definition halted (p : pc) : bool :=
  match p with
  | Returned _ | Terminated => true
  | _ => false
  end.

Definition step_worker (e : env) (t : nat) (s : state) : state :=
  if halted (main_pc s) then s else
  match threads s !! t with
  | None => s
  | Some th =>
      if finished th then s else
      match todo th with
      | u :: rest =>
          match unit_output e u with
          | Some b =>
              State (main_pc s)
                    (<[t := Thread (vec th) rest (sink th ++ b) false]> (threads s))
                    (log s) (output_txt s)
          | None => set_pc Terminated s
          end
      | [] =>
          State (main_pc s)
                (<[t := Thread (vec th) [] (sink th) true]> (threads s))
                (log s ++ [tool_status e (vec th)]) (output_txt s)
      end
  end.

(** One scheduling decision: the chosen thread takes its next step; a
    thread that cannot move (blocked in [join], not yet spawned, done)
    leaves the state as it is. *)
Definition step (K : Z) (e : env) (sources : list str) (s : state) (a : actor) : state :=
  match a with
  | Main => step_main K sources s
  | Worker t => step_worker e t s
  end.

Definition initial : state := State (Spawning 0) [] [] None.

(** A run of the program with [K] threads under a schedule. [argv] is
    the outcome of [CommonOptionsParser::create]: the source path list,
    or [None] when the parser cannot be created ([main] returns 1). *)
Definition run (K : Z) (e : env) (argv : option (list str)) (sched : list actor) : state :=
  match argv with
  | None => State (Returned 1) [] [] None
  | Some sources => foldl (step K e sources) initial sched
  end.

Definition main (e : env) (argv : option (list str)) (sched : list actor) : state :=
  run kThreadsCount e argv sched.

(** The schedule that lets the main thread spawn everything, then each
    worker run to its end one after the other, then the main thread
    join and unite. *)
Definition sequential (K : Z) (sources : list str) : list actor :=
  replicate (Z.to_nat K + 1) Main
  ++ flat_map (λ i, replicate (length (shard K sources (Z.of_nat i)) + 1) (Worker i))
              (seq 0 (Z.to_nat K))
  ++ replicate (Z.to_nat K + 2) Main.

(** The content of [output.txt] as a function of the sources. *)
Definition report (e : env) (sources : list str) : str :=
  Shell.sort (run_tool_bytes e sources).

(** ** Records

    The rendered line of a record: the display name, then every fact of
    the unit, normalised, each after one space. *)
Definition render (sgn : bool) (name : str) (facts : list str) : str :=
  name ++ flat_map (λ n, " "%char :: n) (MyAstConsumer.std_sort sgn facts).

(** The record of a unit, when the unit gets one. *)
Definition record_of (e : env) (u : str) : option str :=
  match analyze e u with
  | None => None
  | Some names =>
      match MyAstConsumer.ctor u with
      | Some filename_ => Some (render (char_is_signed e) filename_ names)
      | None => None
      end
  end.

(** The records of a list of units, in the order of the list. *)
Definition records (e : env) (sources : list str) : list str :=
  omap (record_of e) sources.

(** Neither the path of the unit nor a name collected for it holds a
    newline. *)
Definition newline_free (e : env) (u : str) : Prop :=
  (Shell.nl ∉ u) ∧
  (match analyze e u with
   | Some names => Forall (λ n, Shell.nl ∉ n) names
   | None => True
   end).

(** ** The invariant of a run

    A thread is in step with the sources assigned to it: what it has
    written is exactly the output for the sources it has gone through,
    and it has returned only with nothing left to do. *)
Definition thread_ok (e : env) (assigned : list str) (th : thread) : Prop :=
  vec th = assigned ∧
  (∃ processed, assigned = processed ++ todo th ∧
                sink th = run_tool_bytes e processed) ∧
  (finished th = true → todo th = []).

(** The threads before index [j] have returned from [run_tool]. *)
Definition joined (s : state) (j : nat) : Prop :=
  ∀ t th, (t < j)%nat → threads s !! t = Some th → finished th = true.

(** What the position of the main thread tells about the rest of the
    state. *)
Definition pc_ok (K : Z) (e : env) (sources : list str) (s : state) : Prop :=
  match main_pc s with
  | Spawning i =>
      0 ≤ i ≤ K ∧ Z.of_nat (length (threads s)) = i ∧ output_txt s = None
  | Joining j =>
      Z.of_nat (length (threads s)) = K ∧ joined s j ∧ output_txt s = None
  | Uniting =>
      Z.of_nat (length (threads s)) = K ∧ joined s (length (threads s)) ∧
      output_txt s = None
  | Returned status =>
      status = 0 ∧ Z.of_nat (length (threads s)) = K ∧
      joined s (length (threads s)) ∧
      output_txt s =
        Some (Shell.sort (Shell.cat (run_tool_bytes e <$> shards K sources)))
  | Terminated => output_txt s = None
  end.

Definition invariant (K : Z) (e : env) (sources : list str) (s : state) : Prop :=
  (∀ t th, threads s !! t = Some th →
           thread_ok e (shard K sources (Z.of_nat t)) th) ∧
  pc_ok K e sources s.

#[global] Instance newline_free_dec e u : Decision (newline_free e u).
Proof.
  unfold newline_free. destruct (analyze e u); apply _.
Defined.

(** The empty vectors of a partition come last: no vector with a source
    in it stands after an empty one. *)
Definition empty_shards_trail {A} (ss : list (list A)) : Prop :=
  ∀ (i j : nat) (sh : list A),
    (i ≤ j)%nat → ss !! i = Some [] → ss !! j = Some sh → sh = [].

(** A failing worker makes the process fail: when [ClangTool::run]
    reports a non-zero status for some vector, [main] does not return
    0. *)
Definition failure_surfaces (e : env) (sources : list str) (sched : list actor) : Prop :=
  ∀ status,
    main_pc (main e (Some sources) sched) = Returned status →
    Exists (λ sh, tool_status e sh ≠ 0) (shards kThreadsCount sources) →
    status ≠ 0.

(** ** A sample run *)

Module Sample.
(** Five sources; the front end collects three names for each and
    reports status 0, except that it never reaches the consumer for
    [d/c.cpp]. *)
Definition srcs : list str :=
  [lit "x/b.cpp"; lit "a.cpp"; lit "d/c.cpp"; lit "e.cpp"; lit "q/0.cpp"].

Definition e : env :=
  Env true
      (λ u, if decide (u = lit "d/c.cpp") then None
            else Some [lit "Zeta"; lit "apple"; lit "Be"])
      (λ _, 0).

(** The same front end, with [ClangTool::run] reporting failure. *)
Definition e_fail : env := Env true (analyze e) (λ _, 1).

(** A schedule in which the workers interleave with each other and
    with the main thread. *)
Definition interleaved : list actor :=
  [Main; Main; Worker 0; Worker 1; Main; Main; Main; Main;
   Worker 3; Worker 3; Worker 3; Main; Main; Main; Worker 2; Worker 1;
   Worker 2; Worker 0; Main; Main; Main; Main; Main; Main].
End Sample.

(** ** [MyAstVisitor]

    The visitor sees Clang's declarations only through the queries
    [VisitVarDecl] makes; a declaration is the record of their
    answers. *)

Module MyAstVisitor.

Inductive LanguageLinkage :=
  | CLanguageLinkage
  | CXXLanguageLinkage
  | NoLanguageLinkage.

(** What [parents[0].get<TranslationUnitDecl>()] can tell apart. *)
Inductive ParentNode := TranslationUnitDecl | OtherNode.

Record VarDecl := {
  (** [getFileID(getLocation()) == getMainFileID()] *)
  in_main_file : bool;
  (** [getParentFunctionOrMethod() != nullptr] *)
  has_parent_function_or_method : bool;
  (** [getType().isConstQualified()] *)
  is_const_qualified : bool;
  (** [astContext_->getParents(decl)] *)
  parents : list ParentNode;
  isLocalVarDeclOrParm : bool;
  isStaticLocal : bool;
  isStaticDataMember : bool;
  getLanguageLinkage : LanguageLinkage;
  getQualifiedNameAsString : str;
}.

Fixpoint starts_with (sub s : str) : bool :=
  match sub, s with
  | [], _ => true
  | _ :: _, [] => false
  | x :: sub', y :: s' => Ascii.eqb x y && starts_with sub' s'
  end.

(** [std::string::find(const char* )]: the position of the first
    occurrence; [None] stands for [npos], which no position equals. *)
Fixpoint str_find (sub s : str) : option nat :=
  if starts_with sub s then Some 0%nat
  else match s with
       | [] => None
       | _ :: s' => S <$> str_find sub s'
       end.

(** [parents.size() == 1 && parents[0] is the translation unit]. *)
Definition isSingleParent (d : VarDecl) : bool :=
  match parents d with
  | [TranslationUnitDecl] => true
  | _ => false
  end.

Definition is_c_linkage (l : LanguageLinkage) : bool :=
  match l with
  | CLanguageLinkage => true
  | _ => false
  end.

(** [VisitVarDecl]: the continue flag handed back to the traversal and
    the member [names_] afterwards. *)
Definition VisitVarDecl (d : VarDecl) (names_ : list str) : bool * list str :=
  let containsDots :=
    bool_decide (str_find (lit "::") (getQualifiedNameAsString d) ≠ None) in
  (true,
   if in_main_file d
      && negb (has_parent_function_or_method d)
      && negb (is_const_qualified d)
      && isSingleParent d
      && negb (isLocalVarDeclOrParm d)
      && negb (isStaticLocal d) && negb (isStaticDataMember d)
      && negb (is_c_linkage (getLanguageLinkage d))
      && negb containsDots
   then names_ ++ [getQualifiedNameAsString d]
   else names_).

(** [TraverseDecl] over a translation unit, given as the variable
    declarations in the order the traversal reaches them: a visit that
    returns [false] ends the traversal. *)
Fixpoint TraverseDecl (decls : list VarDecl) (names_ : list str) : bool * list str :=
  match decls with
  | [] => (true, names_)
  | d :: decls' =>
      let (continue, names_') := VisitVarDecl d names_ in
      if continue then TraverseDecl decls' names_' else (false, names_')
  end.

End MyAstVisitor.

(** [MyAstConsumer::HandleTranslationUnit]: a new visitor (with no
    names) traverses the unit and its names are flushed. *)
Definition HandleTranslationUnit (sgn : bool) (filename_ : str)
    (decls : list MyAstVisitor.VarDecl) : str :=
  MyAstConsumer.flushToFile sgn filename_ (MyAstVisitor.TraverseDecl decls []).2.

(** The declarations a unit is made of decide what the visitor collects
    for it: the environment of a run over parsed units. [None] is a
    unit the front end never hands to the consumer. *)
Definition parsed_env (sgn : bool) (units : str → option (list MyAstVisitor.VarDecl))
    (statuses : list str → Z) : env :=
  Env sgn (λ u, (λ decls, (MyAstVisitor.TraverseDecl decls []).2) <$> units u)
      statuses.

(** The visit of [d] adds a name. *)
Definition keeps (d : MyAstVisitor.VarDecl) : bool :=
  bool_decide ((MyAstVisitor.VisitVarDecl d []).2 ≠ []).

(** A global variable of the main file that the visitor keeps, said
    without the code's words: declared in the main file at the top of the
    translation unit, not const, not local or static, without C linkage,
    and with no "::" anywhere in its qualified name. *)
Definition kept (d : MyAstVisitor.VarDecl) : Prop :=
  MyAstVisitor.in_main_file d = true ∧
  MyAstVisitor.has_parent_function_or_method d = false ∧
  MyAstVisitor.is_const_qualified d = false ∧
  MyAstVisitor.parents d = [MyAstVisitor.TranslationUnitDecl] ∧
  MyAstVisitor.isLocalVarDeclOrParm d = false ∧
  MyAstVisitor.isStaticLocal d = false ∧
  MyAstVisitor.isStaticDataMember d = false ∧
  MyAstVisitor.getLanguageLinkage d ≠ MyAstVisitor.CLanguageLinkage ∧
  ∀ before after,
    MyAstVisitor.getQualifiedNameAsString d ≠ before ++ lit "::" ++ after.

(** ** Auxiliary notions for the further properties *)

(** ASCII lower-casing of one character and of a name. *)
Definition lower_char (c : ascii) : ascii :=
  if (65 <=? byte_val c) && (byte_val c <=? 90)
  then ascii_of_N (N_of_ascii c + 32) else c.

Definition lower (a : str) : str := lower_char <$> a.

(** Neither name is smaller than the other for the comparator. *)
Definition equivalent (sgn : bool) (a b : str) : Prop :=
  MyAstConsumer.names_lt sgn a b = false ∧ MyAstConsumer.names_lt sgn b a = false.

(** The thread that gets the source at position [p] of the list. *)
Definition owner {A} (K : Z) (sources : list A) (p : Z) : Z :=
  if chunk_size K sources =? 0 then K - 1
  else Z.min (p / chunk_size K sources) (K - 1).

(** The main thread is still in the spawning loop. *)
Definition spawning (p : pc) : bool :=
  match p with
  | Spawning _ => true
  | _ => false
  end.

#[global] Instance actor_eq_dec : EqDecision actor.
Proof. solve_decision. Defined.

(** Steps of the main thread that suffice to return from [main] once
    every thread has returned from [run_tool]. *)
Definition steps_to_return (K : Z) (p : pc) : nat :=
  match p with
  | Joining j => (Z.to_nat K - j) + 2
  | Uniting => 1
  | _ => 0
  end.

(** The run is in order and [std::terminate] has not been called. *)
Definition good (K : Z) (e : env) (sources : list str) (s : state) : Prop :=
  invariant K e sources s ∧ main_pc s ≠ Terminated.

(** Every status printed so far belongs to a thread that has returned,
    and every such thread has printed its status once. *)
Definition log_ok (e : env) (s : state) : Prop :=
  log s ≡ₚ (λ th, tool_status e (vec th))
             <$> filter (λ th, finished th = true) (threads s).

(** A schedule that completes a run from wherever it stands: enough
    steps of the main thread to end the spawning loop, enough steps of
    every worker to go through any vector, enough steps of the main
    thread to join all threads and unite the files. *)
Definition finishing (K : Z) (sources : list str) : list actor :=
  replicate (Z.to_nat K + 1) Main
  ++ flat_map (λ t, replicate (length sources + 1) (Worker t))
              (seq 0 (Z.to_nat K))
  ++ replicate (Z.to_nat K + 2) Main.

(** ** A unit whose file name holds a newline

    A newline is an ordinary byte of a POSIX file name. [torn] is the
    file name made of [b], a newline and [a.cpp]. *)

Module Newline.
Definition torn : str := lit "b" ++ [Shell.nl] ++ lit "a.cpp".

Definition srcs : list str := [torn; lit "c.cpp"].


(** The visitor collects the one name [x] for every unit. *)
Definition e : env := Env true (λ _, Some [lit "x"]) (λ _, 0).
End Newline.

(** The lines of the report are the rendered lines of the records, in
    byte-wise lexicographic order. *)
Definition report_is_sorted_records (e : env) (sources : list str)
    (sched : list actor) : Prop :=
  ∀ r, output_txt (main e (Some sources) sched) = Some r →
    Shell.lines r ≡ₚ records e sources ∧
    StronglySorted (λ a b, ¬ lex_lt (byte_val <$> b) (byte_val <$> a))
                   (Shell.lines r).


(** Two states that differ at most in what has been printed. *)
Definition same_but_log (s s' : state) : Prop :=
  main_pc s = main_pc s' ∧ threads s = threads s' ∧
  output_txt s = output_txt s'.

(** * Properties *)

(** ** Machine integers *)

Lemma to_int_small z : - 2 ^ 31 ≤ z ≤ Int.INT_MAX → Int.to_int z = z.
Proof.
  unfold Int.to_int, Int.INT_MAX. intros Hz.
  rewrite Z.mod_small by lia. lia.
Qed.

Lemma to_size_t_small z : 0 ≤ z ≤ Int.INT_MAX → Int.to_size_t z = z.
Proof.
  unfold Int.to_size_t, Int.INT_MAX. intros Hz.
  apply Z.mod_small. lia.
Qed.

Lemma npos_as_int : Int.to_size_t (Int.to_int Int.npos) = Int.npos.
Proof. reflexivity. Qed.

(** ** The display name *)

Section DisplayName.
Import MyAstConsumer.

Lemma rfind_from_absent c s i found :
  c ∉ s → rfind_from c s i found = found.
Proof.
  revert i found. induction s as [|x s IH]; intros i found Hc; [done|].
  apply not_elem_of_cons in Hc as [Hx Hs]. simpl.
  destruct (Ascii.eqb_spec x c) as [->|_]; [done|]. by apply IH.
Qed.

Lemma rfind_from_last c dir base i found :
  c ∉ base →
  rfind_from c (dir ++ c :: base) i found = i + Z.of_nat (length dir).
Proof.
  intros Hc. revert i found.
  induction dir as [|x dir IH]; intros i found; simpl.
  - rewrite Ascii.eqb_refl, rfind_from_absent by done. lia.
  - rewrite IH. lia.
Qed.

Lemma ctor_no_slash filename :
  "/"%char ∉ filename → ctor filename = Some filename.
Proof.
  intros Hc. unfold ctor, rfind.
  rewrite rfind_from_absent by done. by rewrite npos_as_int.
Qed.

Lemma ctor_last_slash dir base :
  Z.of_nat (length (dir ++ "/"%char :: base)) ≤ Int.INT_MAX →
  "/"%char ∉ base →
  ctor (dir ++ "/"%char :: base) = Some base.
Proof.
  intros Hlen Hc. unfold ctor, rfind.
  rewrite rfind_from_last by done.
  rewrite length_app in Hlen. simpl in Hlen.
  set (p := Z.of_nat (length dir)) in *.
  assert (0 ≤ p ∧ p + 1 ≤ Int.INT_MAX) as [Hp0 Hp1] by (unfold p; lia).
  replace (0 + p) with p by lia.
  rewrite (to_int_small p) by (unfold Int.INT_MAX in *; lia).
  rewrite (to_size_t_small p) by lia.
  destruct (Z.eqb_spec p Int.npos) as [Heq|_].
  { unfold Int.npos, Int.INT_MAX in *. lia. }
  cbn [negb].
  rewrite (to_int_small (p + 1)) by (unfold Int.INT_MAX in *; lia).
  rewrite (to_size_t_small (p + 1)) by lia.
  unfold substr. rewrite length_app. simpl.
  destruct (Z.leb_spec (p + 1) (Z.of_nat (length dir + S (length base))))
    as [_|Hbad]; [|unfold p in Hbad; lia].
  f_equal. replace (Z.to_nat (p + 1)) with (length dir + 1)%nat
    by (unfold p; lia).
  rewrite drop_app_add'; [|done]. done.
Qed.
End DisplayName.

(** ** The comparator of [flushToFile] *)

Section Comparator.
Import MyAstConsumer.

Lemma lex_lt_irrefl a : ¬ lex_lt a a.
Proof. induction a as [|x a IH]; inversion 1; subst; [lia|auto]. Qed.

Lemma lex_lt_trans a b c : lex_lt a b → lex_lt b c → lex_lt a c.
Proof.
  intros Hab. revert c.
  induction Hab as [y b|x y a b Hxy|x a b Hab IH]; intros c Hbc;
    inversion Hbc; subst.
  - constructor.
  - constructor.
  - apply lex_lt_differ. lia.
  - by apply lex_lt_differ.
  - by apply lex_lt_differ.
  - apply lex_lt_common. auto.
Qed.

Lemma lex_lt_trichotomy a b : lex_lt a b ∨ a = b ∨ lex_lt b a.
Proof.
  revert b. induction a as [|x a IH]; intros [|y b].
  - auto.
  - left. constructor.
  - right. right. constructor.
  - destruct (Z.lt_trichotomy x y) as [Hlt|[->|Hgt]].
    + left. by constructor.
    + destruct (IH b) as [H|[->|H]]; [left|by auto|right; right];
        by apply lex_lt_common.
    + right. right. by constructor.
Qed.

(** The loop of the lambda decides the lexicographic order of the
    case-folded names; [size_a] and [size_b] only matter through the
    part of the two strings not yet walked over. *)
Lemma names_lt_loop_spec sgn a b size_a size_b :
  size_a - Z.of_nat (length a) = size_b - Z.of_nat (length b) →
  names_lt_loop sgn size_a size_b a b = true ↔ caseless_lt sgn a b.
Proof.
  unfold caseless_lt. revert b.
  induction a as [|x a IH]; intros [|y b] Hsz; simpl in *.
  - rewrite Z.ltb_lt. split; [lia|inversion 1].
  - rewrite Z.ltb_lt. split; [constructor|lia].
  - rewrite Z.ltb_lt. split; [lia|inversion 1].
  - destruct (Z.eqb_spec (tolower (char_val sgn x)) (tolower (char_val sgn y)))
      as [Heq|Hne]; cbn [negb].
    + rewrite IH by lia. rewrite Heq. split.
      * apply lex_lt_common.
      * inversion 1; subst; [lia|done].
    + rewrite Z.ltb_lt. split.
      * apply lex_lt_differ.
      * inversion 1; subst; [done|congruence].
Qed.

Lemma names_lt_spec sgn a b :
  names_lt sgn a b = true ↔ caseless_lt sgn a b.
Proof. apply names_lt_loop_spec. lia. Qed.

Lemma names_le_spec sgn a b :
  names_le sgn a b ↔ ¬ caseless_lt sgn b a.
Proof.
  unfold names_le. rewrite <-names_lt_spec.
  by destruct (names_lt sgn b a).
Qed.

(** The lambda is a strict weak ordering, as [std::sort] requires. *)
Lemma names_lt_irrefl sgn a : names_lt sgn a a = false.
Proof.
  apply not_true_is_false. rewrite names_lt_spec. apply lex_lt_irrefl.
Qed.

#[local] Instance names_le_trans sgn : Transitive (names_le sgn).
Proof.
  intros a b c. rewrite !names_le_spec. unfold caseless_lt.
  intros Hba Hcb Hca.
  destruct (lex_lt_trichotomy (casefold sgn a) (casefold sgn b))
    as [Hab|[Heq|Hab]]; [|congruence|done].
  apply Hcb. by apply lex_lt_trans with (casefold sgn a).
Qed.

#[local] Instance names_le_total sgn : Total (names_le sgn).
Proof.
  intros a b. destruct (decide (names_le sgn a b)) as [|Hn]; [by left|right].
  apply names_le_spec. intros Hab. apply Hn, names_le_spec. intros Hba.
  by apply (lex_lt_irrefl (casefold sgn a)), lex_lt_trans with (casefold sgn b).
Qed.

Lemma std_sort_perm sgn names : std_sort sgn names ≡ₚ names.
Proof. apply merge_sort_Permutation. Qed.

Lemma std_sort_sorted sgn names :
  StronglySorted (names_le sgn) (std_sort sgn names).
Proof. apply StronglySorted_merge_sort; apply _. Qed.

(** Whatever permutation [std::sort] settles on, the case-folded
    images of its output are the same: only names that differ in case
    alone may change places. *)
Lemma sorted_casefold_unique sgn (l1 l2 : list str) :
  StronglySorted (names_le sgn) l1 → StronglySorted (names_le sgn) l2 →
  l1 ≡ₚ l2 → casefold sgn <$> l1 = casefold sgn <$> l2.
Proof.
  intros H1 H2 Hp.
  apply (StronglySorted_unique_strong (λ a b, ¬ lex_lt b a)).
  - intros a b _ _ Hba Hab.
    by destruct (lex_lt_trichotomy a b) as [?|[?|?]].
  - eapply StronglySorted_fmap; [|done].
    intros a b. by rewrite names_le_spec.
  - eapply StronglySorted_fmap; [|done].
    intros a b. by rewrite names_le_spec.
  - by rewrite Hp.
Qed.
End Comparator.

(** ** The partition *)

Section PartitionFacts.
Context {A : Type}.
Implicit Types (sources : list A) (K i : Z).

Lemma chunk_size_div K sources :
  1 ≤ K → Z.of_nat (length sources) ≤ Int.INT_MAX →
  chunk_size K sources = Z.of_nat (length sources) / K.
Proof.
  intros HK HN. unfold chunk_size.
  rewrite to_int_small by lia. apply Z.quot_div_nonneg; lia.
Qed.

Lemma chunk_size_bounds K sources :
  1 ≤ K → Z.of_nat (length sources) ≤ Int.INT_MAX →
  0 ≤ chunk_size K sources ∧
  K * chunk_size K sources ≤ Z.of_nat (length sources).
Proof.
  intros HK HN. rewrite chunk_size_div by done. split.
  - apply Z.div_pos; lia.
  - apply Z.mul_div_le. lia.
Qed.

Lemma begin_index_eq K sources i :
  1 ≤ K → Z.of_nat (length sources) ≤ Int.INT_MAX → 0 ≤ i < K →
  begin_index K sources i = i * chunk_size K sources.
Proof.
  intros HK HN Hi. destruct (chunk_size_bounds K sources HK HN) as [Hc0 HcK].
  unfold begin_index. apply to_int_small. nia.
Qed.

Lemma end_index_inner K sources i :
  1 ≤ K → Z.of_nat (length sources) ≤ Int.INT_MAX → 0 ≤ i < K - 1 →
  end_index K sources i = (i + 1) * chunk_size K sources.
Proof.
  intros HK HN Hi. destruct (chunk_size_bounds K sources HK HN) as [Hc0 HcK].
  unfold end_index. destruct (Z.eqb_spec i (K - 1)); [lia|].
  apply to_int_small. nia.
Qed.

Lemma end_index_last K sources :
  Z.of_nat (length sources) ≤ Int.INT_MAX →
  end_index K sources (K - 1) = Z.of_nat (length sources).
Proof.
  intros HN. unfold end_index. rewrite Z.eqb_refl. apply to_int_small. lia.
Qed.

(** Every thread but the last gets [chunk_size] consecutive sources. *)
Lemma shard_inner K sources i :
  1 ≤ K → Z.of_nat (length sources) ≤ Int.INT_MAX → 0 ≤ i < K - 1 →
  shard K sources i =
    take (Z.to_nat (chunk_size K sources))
         (drop (Z.to_nat (i * chunk_size K sources)) sources).
Proof.
  intros HK HN Hi. unfold shard, range.
  rewrite begin_index_eq, end_index_inner by (done || lia).
  do 2 f_equal. lia.
Qed.

(** The last thread gets everything that is left. *)
Lemma shard_last K sources :
  1 ≤ K → Z.of_nat (length sources) ≤ Int.INT_MAX →
  shard K sources (K - 1) =
    drop (Z.to_nat ((K - 1) * chunk_size K sources)) sources.
Proof.
  intros HK HN. unfold shard, range.
  rewrite begin_index_eq, end_index_last by (done || lia).
  apply take_ge. rewrite length_drop. lia.
Qed.

Lemma shards_length K sources : length (shards K sources) = Z.to_nat K.
Proof. unfold shards. by rewrite length_fmap, length_seqZ. Qed.

Lemma shards_lookup K sources (i : nat) :
  Z.of_nat i < K → shards K sources !! i = Some (shard K sources (Z.of_nat i)).
Proof.
  intros Hi. unfold shards. by rewrite list_lookup_fmap, lookup_seqZ_lt.
Qed.

(** The first [n] vectors together are the first [n * chunk_size]
    sources. *)
Lemma concat_inner_shards K sources (n : nat) :
  1 ≤ K → Z.of_nat (length sources) ≤ Int.INT_MAX → Z.of_nat n ≤ K - 1 →
  concat (shard K sources <$> seqZ 0 (Z.of_nat n)) =
    take (Z.to_nat (Z.of_nat n * chunk_size K sources)) sources.
Proof.
  intros HK HN. destruct (chunk_size_bounds K sources HK HN) as [Hc0 _].
  induction n as [|n IH]; intros Hn.
  - by rewrite Z.mul_0_l.
  - rewrite seqZ_S, fmap_app, concat_app, IH by lia. simpl.
    rewrite app_nil_r, shard_inner by lia.
    replace (0 + Z.of_nat n) with (Z.of_nat n) by lia.
    rewrite take_take_drop. f_equal. nia.
Qed.

Lemma concat_shards K sources :
  1 ≤ K → Z.of_nat (length sources) ≤ Int.INT_MAX →
  concat (shards K sources) = sources.
Proof.
  intros HK HN. unfold shards.
  replace K with (Z.of_nat (S (Z.to_nat (K - 1)))) at 2 by lia.
  rewrite seqZ_S, fmap_app, concat_app, concat_inner_shards by lia. simpl.
  replace (0 + Z.of_nat (Z.to_nat (K - 1))) with (K - 1) by lia.
  rewrite app_nil_r, shard_last by done.
  rewrite Z2Nat.id by lia. apply take_drop.
Qed.

Lemma shard_inner_length K sources i :
  1 ≤ K → Z.of_nat (length sources) ≤ Int.INT_MAX → 0 ≤ i < K - 1 →
  Z.of_nat (length (shard K sources i)) = Z.of_nat (length sources) / K.
Proof.
  intros HK HN Hi. destruct (chunk_size_bounds K sources HK HN) as [Hc0 HcK].
  rewrite shard_inner, length_take, length_drop by done.
  rewrite <-chunk_size_div by done. nia.
Qed.

Lemma shard_last_length K sources :
  1 ≤ K → Z.of_nat (length sources) ≤ Int.INT_MAX →
  Z.of_nat (length (shard K sources (K - 1))) =
    Z.of_nat (length sources) - (K - 1) * (Z.of_nat (length sources) / K).
Proof.
  intros HK HN. destruct (chunk_size_bounds K sources HK HN) as [Hc0 HcK].
  rewrite shard_last, length_drop by done.
  rewrite <-chunk_size_div by done. nia.
Qed.
End PartitionFacts.

(** ** Lines, byte order and [sort] *)

Section ShellFacts.
Import Shell.
Implicit Types (a b l s rest input : str) (ls : list str).

Lemma byte_val_inj x y : byte_val x = byte_val y → x = y.
Proof.
  unfold byte_val. intros H. apply N2Z.inj in H.
  by rewrite <-(ascii_N_embedding x), <-(ascii_N_embedding y), H.
Qed.

Lemma byte_vals_inj a b : byte_val <$> a = byte_val <$> b → a = b.
Proof.
  revert b. induction a as [|x a IH]; intros [|y b] H; simplify_eq/=; [done|].
  f_equal; [by apply byte_val_inj|by apply IH].
Qed.

(** [bytes_leb] is the lexicographic order of the byte values. *)
Lemma bytes_le_spec a b :
  bytes_le a b ↔ ¬ lex_lt (byte_val <$> b) (byte_val <$> a).
Proof.
  unfold bytes_le. revert b.
  induction a as [|x a IH]; intros [|y b]; simpl.
  - split; [inversion 2|done].
  - split; [inversion 2|done].
  - split; [done|]. intros []. constructor.
  - destruct (Z.ltb_spec (byte_val x) (byte_val y)) as [Hxy|Hxy].
    { split; [|done]. intros _. inversion 1; subst; [lia|]. lia. }
    destruct (Z.ltb_spec (byte_val y) (byte_val x)) as [Hyx|Hyx].
    { split; [done|]. intros []. by constructor. }
    assert (byte_val x = byte_val y) as Heq by lia.
    rewrite IH, Heq. split.
    + intros Hn. inversion 1; subst; [lia|done].
    + intros Hn Hlt. apply Hn. by constructor.
Qed.

#[local] Instance bytes_le_trans : Transitive bytes_le.
Proof.
  intros a b c. rewrite !bytes_le_spec. intros Hba Hcb Hca.
  destruct (lex_lt_trichotomy (byte_val <$> a) (byte_val <$> b))
    as [Hab|[Heq|Hab]]; [|congruence|done].
  apply Hcb. by apply lex_lt_trans with (byte_val <$> a).
Qed.

#[local] Instance bytes_le_total : Total bytes_le.
Proof.
  intros a b. rewrite !bytes_le_spec.
  destruct (lex_lt_trichotomy (byte_val <$> a) (byte_val <$> b))
    as [Hab|[Heq|Hab]].
  - left. intros Hba. by eapply lex_lt_irrefl, lex_lt_trans.
  - left. rewrite Heq. apply lex_lt_irrefl.
  - right. intros Hba. by eapply lex_lt_irrefl, lex_lt_trans.
Qed.

#[local] Instance bytes_le_antisym : AntiSymm (=) bytes_le.
Proof.
  intros a b. rewrite !bytes_le_spec. intros Hba Hab.
  apply byte_vals_inj.
  by destruct (lex_lt_trichotomy (byte_val <$> a) (byte_val <$> b))
    as [?|[?|?]].
Qed.

(** No line contains a newline. *)
Lemma lines_nl_free s : Forall (λ l, nl ∉ l) (lines s).
Proof.
  induction s as [|c s IH]; simpl; [constructor|].
  destruct (Ascii.eqb_spec c nl) as [->|Hc].
  - constructor; [apply not_elem_of_nil|done].
  - destruct (lines s) as [|l ls]; constructor.
    + apply not_elem_of_cons. split; [done|apply not_elem_of_nil].
    + constructor.
    + inversion IH; subst. by apply not_elem_of_cons.
    + by inversion IH.
Qed.

(** A newline-free prefix closed by a newline is the first line. *)
Lemma lines_cons l rest :
  nl ∉ l → lines (l ++ nl :: rest) = l :: lines rest.
Proof.
  induction l as [|c l IH]; intros Hl; simpl.
  - done.
  - apply not_elem_of_cons in Hl as [Hc Hl].
    destruct (Ascii.eqb_spec c nl) as [->|_]; [done|].
    by rewrite IH.
Qed.

Lemma lines_unlines ls : Forall (λ l, nl ∉ l) ls → lines (unlines ls) = ls.
Proof.
  induction 1 as [|l ls Hl _ IH]; [done|].
  unfold unlines in *. simpl. rewrite <-app_assoc. simpl.
  by rewrite lines_cons, IH.
Qed.

(** The lines [sort] writes are the lines it read, sorted. *)
Lemma lines_sort input :
  lines (sort input) = merge_sort bytes_le (lines input).
Proof.
  unfold sort. apply lines_unlines.
  rewrite merge_sort_Permutation. apply lines_nl_free.
Qed.

Lemma lines_sort_sorted input : StronglySorted bytes_le (lines (sort input)).
Proof. rewrite lines_sort. apply StronglySorted_merge_sort; apply _. Qed.

Lemma lines_sort_perm input : lines (sort input) ≡ₚ lines input.
Proof. rewrite lines_sort. apply merge_sort_Permutation. Qed.

(** The sorted order of a collection of lines is unique: whatever the
    order in which they arrive, [sort] writes the same bytes. *)
Lemma sort_perm_invariant in1 in2 :
  lines in1 ≡ₚ lines in2 → sort in1 = sort in2.
Proof.
  intros Hp. unfold sort. f_equal.
  apply (StronglySorted_unique bytes_le).
  - apply StronglySorted_merge_sort; apply _.
  - apply StronglySorted_merge_sort; apply _.
  - by rewrite !merge_sort_Permutation.
Qed.
End ShellFacts.

(** ** What a worker writes *)

Section WorkerFacts.
Import MyAstConsumer Shell.
Implicit Types (u fn : str) (names sources : list str).

Lemma flushToFile_render sgn fn names :
  flushToFile sgn fn names = render sgn fn names ++ [nl].
Proof. unfold flushToFile, render. by rewrite <-app_assoc. Qed.

(** The display name is a suffix of the path. *)
Lemma ctor_suffix u fn :
  ctor u = Some fn → ∃ n, fn = drop n u.
Proof.
  unfold ctor, substr. intros H.
  repeat case_match; simplify_eq; [by eexists|by exists 0%nat].
Qed.

Lemma nl_free_spaced names :
  Forall (λ n, nl ∉ n) names → nl ∉ flat_map (λ n, " "%char :: n) names.
Proof.
  induction 1 as [|n names Hn _ IH]; simpl; [apply not_elem_of_nil|].
  apply not_elem_of_cons. split; [done|].
  by apply not_elem_of_app.
Qed.

Lemma nl_free_render sgn fn names :
  nl ∉ fn → Forall (λ n, nl ∉ n) names →
  nl ∉ render sgn fn names.
Proof.
  intros Hf Hn. unfold render. apply not_elem_of_app. split; [done|].
  apply nl_free_spaced. by rewrite std_sort_perm.
Qed.

Lemma nl_free_record e u r :
  newline_free e u → record_of e u = Some r → nl ∉ r.
Proof.
  unfold newline_free, record_of. intros [Hu Hn] Hr.
  destruct (analyze e u) as [names|]; [|done].
  destruct (ctor u) as [fn|] eqn:Hc; simplify_eq.
  apply nl_free_render; [|done].
  apply ctor_suffix in Hc as [n ->].
  intros Hin. apply Hu. by eapply subseteq_drop.
Qed.

(** The bytes a unit adds to the sink are its record and a newline,
    or nothing when it has no record. *)
Lemma unit_bytes_record e u :
  unit_bytes e u = from_option (λ r, r ++ [nl]) [] (record_of e u).
Proof.
  unfold unit_bytes, unit_output, record_of.
  destruct (analyze e u) as [names|]; [|done].
  destruct (ctor u) as [fn|]; [|done].
  simpl. apply flushToFile_render.
Qed.

Lemma run_tool_bytes_app e sources1 sources2 :
  run_tool_bytes e (sources1 ++ sources2) =
    run_tool_bytes e sources1 ++ run_tool_bytes e sources2.
Proof. unfold run_tool_bytes. apply flat_map_app. Qed.

Lemma run_tool_bytes_concat e (ss : list (list str)) :
  run_tool_bytes e (concat ss) = concat (run_tool_bytes e <$> ss).
Proof.
  induction ss as [|s ss IH]; [done|]. simpl.
  by rewrite run_tool_bytes_app, IH.
Qed.

(** The lines of a sink are the records of its units, in the order of
    the units. *)
Lemma lines_run_tool_bytes e sources :
  Forall (newline_free e) sources →
  lines (run_tool_bytes e sources) = records e sources.
Proof.
  induction 1 as [|u sources Hu _ IH]; [done|].
  unfold run_tool_bytes, records in *. simpl.
  rewrite unit_bytes_record.
  destruct (record_of e u) as [r|] eqn:Hr; simpl; [|done].
  rewrite <-app_assoc. simpl.
  rewrite lines_cons by eauto using nl_free_record.
  by rewrite IH.
Qed.
End WorkerFacts.

(** ** Runs *)

Section RunFacts.
Variables (K : Z) (e : env) (sources : list str).
Hypothesis K_pos : 1 ≤ K.

Lemma invariant_initial : invariant K e sources initial.
Proof.
  split; [by intros t th Hl|]. unfold pc_ok; simpl. repeat split; lia.
Qed.

(** A finished thread has written the whole output of its vector. *)
Lemma thread_ok_finished assigned th :
  thread_ok e assigned th → finished th = true →
  todo th = [] ∧ sink th = run_tool_bytes e assigned.
Proof.
  intros (_ & (processed & Hsplit & Hsink) & Hfin) Hdone.
  rewrite Hfin in Hsplit by done. rewrite app_nil_r in Hsplit.
  subst. auto.
Qed.

Lemma sinks_complete s :
  invariant K e sources s →
  Z.of_nat (length (threads s)) = K → joined s (length (threads s)) →
  sink <$> threads s = run_tool_bytes e <$> shards K sources.
Proof.
  intros [Hth _] Hlen Hj. apply list_eq. intros t.
  rewrite !list_lookup_fmap.
  destruct (threads s !! t) as [th|] eqn:Hl; simpl.
  - assert (t < length (threads s))%nat as Ht by by eapply lookup_lt_Some.
    rewrite shards_lookup by lia. simpl. f_equal.
    by eapply thread_ok_finished; eauto.
  - apply lookup_ge_None in Hl.
    rewrite (proj2 (lookup_ge_None _ _)); [done|].
    rewrite shards_length. lia.
Qed.

Lemma invariant_step_main s :
  invariant K e sources s → invariant K e sources (step_main K sources s).
Proof.
  intros Hinv. pose proof Hinv as [Hth Hpc].
  unfold step_main. unfold pc_ok in Hpc.
  destruct (main_pc s) as [i|j| |status|] eqn:Hs.
  - destruct Hpc as (Hi & Hlen & Hout).
    destruct (Z.ltb_spec i K) as [Hlt|Hge].
    + split.
      * intros t th. simpl. intros Hl.
        apply lookup_app_Some in Hl as [Hl|[Hge Hl]]; [by eauto|].
        apply list_lookup_singleton_Some in Hl as [Ht <-].
        replace (Z.of_nat t) with i by lia.
        split; [done|]. split; [by exists []|done].
      * unfold pc_ok. simpl. rewrite length_app. simpl.
        split; [lia|]. split; [lia|done].
    + split; [done|]. unfold pc_ok. simpl.
      split; [lia|]. split; [|done]. intros t th Ht. lia.
  - destruct Hpc as (Hlen & Hj & Hout).
    destruct (threads s !! j) as [th|] eqn:Hl.
    + destruct (finished th) eqn:Hfin; [|done].
      split; [done|]. unfold pc_ok. simpl.
      split; [done|]. split; [|done]. intros t th' Ht Hl'. simpl in Hl'.
      destruct (decide (t = j)) as [->|]; [by simplify_eq|].
      eapply Hj; [|done]. lia.
    + split; [done|]. unfold pc_ok. simpl.
      split; [done|]. split; [|done]. intros t th' Ht Hl'. simpl in Hl'.
      apply lookup_ge_None in Hl. eapply Hj; [|done]. lia.
  - destruct Hpc as (Hlen & Hj & Hout).
    split; [done|]. unfold pc_ok. simpl.
    split; [done|]. split; [done|]. split; [done|].
    unfold Shell.cat. by rewrite (sinks_complete s).
  - done.
  - done.
Qed.

Lemma pc_ok_update s s' :
  main_pc s' = main_pc s → output_txt s' = output_txt s →
  length (threads s') = length (threads s) →
  (∀ j, joined s j → joined s' j) →
  pc_ok K e sources s → pc_ok K e sources s'.
Proof.
  unfold pc_ok. intros -> -> -> Hj.
  destruct (main_pc s); intuition auto.
Qed.

Lemma pc_ok_terminate s :
  halted (main_pc s) = false →
  pc_ok K e sources s → pc_ok K e sources (set_pc Terminated s).
Proof.
  unfold pc_ok. simpl. destruct (main_pc s); by intuition.
Qed.

(** Replacing a thread that has not returned leaves the joined
    threads as they are. *)
Lemma joined_update s t th th' j :
  threads s !! t = Some th → finished th = false →
  joined s j →
  joined (State (main_pc s) (<[t := th']> (threads s)) (log s) (output_txt s)) j.
Proof.
  intros Hl Hfin Hj t0 th0 Ht0. simpl. intros Hl0.
  destruct (decide (t0 = t)) as [->|Hne].
  - specialize (Hj t th Ht0 Hl). congruence.
  - rewrite list_lookup_insert_ne in Hl0 by done. eauto.
Qed.

Lemma invariant_update s t th th' lg :
  invariant K e sources s →
  threads s !! t = Some th → finished th = false →
  thread_ok e (shard K sources (Z.of_nat t)) th' →
  invariant K e sources
    (State (main_pc s) (<[t := th']> (threads s)) lg (output_txt s)).
Proof.
  intros [Hth Hpc] Hl Hfin Hok. split.
  - intros t0 th0. simpl. intros Hl0.
    destruct (decide (t0 = t)) as [->|Hne].
    + rewrite list_lookup_insert_eq in Hl0 by by eapply lookup_lt_Some.
      by simplify_eq.
    + rewrite list_lookup_insert_ne in Hl0 by done. eauto.
  - eapply pc_ok_update; [..|exact Hpc]; simpl; try done.
    + by rewrite length_insert.
    + intros j Hj t0 th0 Ht0 Hl0.
      by eapply (joined_update s t th th' j).
Qed.

Lemma invariant_step_worker t s :
  invariant K e sources s → invariant K e sources (step_worker e t s).
Proof.
  intros Hinv. unfold step_worker.
  destruct (halted (main_pc s)) eqn:Hhalt; [done|].
  destruct (threads s !! t) as [th|] eqn:Hl; [|done].
  destruct (finished th) eqn:Hfin; [done|].
  destruct (proj1 Hinv t th Hl) as (Hvec & (processed & Hsplit & Hsink) & _).
  destruct (todo th) as [|u rest] eqn:Htodo.
  - apply (invariant_update s t th); [done..|].
    split; [done|]. split; [|done]. by exists processed.
  - destruct (unit_output e u) as [b|] eqn:Hu.
    + apply (invariant_update s t th); [done..|].
      split; [done|]. split; [|done]. exists (processed ++ [u]). simpl.
      split; [by rewrite <-app_assoc|].
      rewrite run_tool_bytes_app, Hsink. unfold run_tool_bytes. simpl.
      rewrite app_nil_r. unfold unit_bytes. by rewrite Hu.
    + split; [apply Hinv|]. apply pc_ok_terminate; [done|apply Hinv].
Qed.

Lemma invariant_foldl sched s :
  invariant K e sources s →
  invariant K e sources (foldl (step K e sources) s sched).
Proof.
  revert s. induction sched as [|a sched IH]; intros s Hinv; [done|].
  simpl. apply IH. destruct a; simpl.
  - by apply invariant_step_main.
  - by apply invariant_step_worker.
Qed.

Lemma invariant_run sched :
  invariant K e sources (run K e (Some sources) sched).
Proof. apply invariant_foldl, invariant_initial. Qed.
End RunFacts.

(** ** A run that completes

    Under the sequential schedule the program returns from [main],
    provided no path makes the consumer's constructor throw. *)

Section Progress.
Variables (K : Z) (e : env) (sources : list str).
Hypothesis K_pos : 1 ≤ K.
Hypothesis no_throw : Forall (λ u, is_Some (unit_output e u)) sources.

Local Abbreviation ss := (shards K sources).
Local Abbreviation exec := (foldl (step K e sources)).

Lemma no_throw_shard i :
  Forall (λ u, is_Some (unit_output e u)) (shard K sources i).
Proof. unfold shard, range. by apply Forall_take, Forall_drop. Qed.

Lemma spawn_some (n : nat) :
  Z.of_nat n ≤ K →
  exec initial (replicate n Main) =
    State (Spawning (Z.of_nat n))
          (spawned <$> (shard K sources <$> seqZ 0 (Z.of_nat n))) [] None.
Proof.
  induction n as [|n IH]; intros Hn; [done|].
  rewrite replicate_S_end, foldl_snoc, IH by lia.
  simpl. unfold step_main. simpl.
  destruct (Z.ltb_spec (Z.of_nat n) K) as [_|]; [|lia].
  rewrite seqZ_S, !fmap_app. simpl.
  do 2 f_equal. lia.
Qed.

Lemma spawn_all :
  exec initial (replicate (Z.to_nat K + 1) Main) =
    State (Joining 0) (spawned <$> ss) [] None.
Proof.
  rewrite replicate_add, foldl_app.
  rewrite spawn_some by lia. simpl. unfold step_main. simpl.
  destruct (Z.ltb_spec (Z.of_nat (Z.to_nat K)) K) as [|_]; [lia|].
  unfold set_pc, shards. simpl. by rewrite Z2Nat.id by lia.
Qed.

(** A worker scheduled often enough goes through all its sources and
    returns. *)
Lemma worker_runs s t v rest sk :
  halted (main_pc s) = false →
  threads s !! t = Some (Thread v rest sk false) →
  Forall (λ u, is_Some (unit_output e u)) rest →
  exec s (replicate (length rest + 1) (Worker t)) =
    State (main_pc s)
          (<[t := Thread v [] (sk ++ run_tool_bytes e rest) true]> (threads s))
          (log s ++ [tool_status e v]) (output_txt s).
Proof.
  revert s sk.
  induction rest as [|u rest IH]; intros s sk Hhalt Hl Hok; simpl.
  - unfold step_worker. rewrite Hhalt, Hl. simpl. by rewrite app_nil_r.
  - inversion Hok as [|?? [b Hb] Hok']; subst.
    unfold step_worker. rewrite Hhalt, Hl. simpl. rewrite Hb.
    rewrite (IH _ (sk ++ b)); simpl; [|done| |done].
    + rewrite list_insert_insert_eq. do 3 f_equal.
      unfold run_tool_bytes. simpl. unfold unit_bytes. rewrite Hb.
      simpl. by rewrite app_assoc.
    + apply list_lookup_insert_eq. by eapply lookup_lt_Some.
Qed.

Lemma workers_run (n : nat) :
  (n ≤ Z.to_nat K)%nat →
  exec (State (Joining 0) (spawned <$> ss) [] None)
       (flat_map (λ i, replicate (length (shard K sources (Z.of_nat i)) + 1)
                                 (Worker i))
                 (seq 0 n)) =
    State (Joining 0)
          ((returned e <$> take n ss) ++ (spawned <$> drop n ss))
          (tool_status e <$> take n ss) None.
Proof.
  induction n as [|n IH]; intros Hn; [done|].
  rewrite seq_S, flat_map_app, foldl_app, IH by lia. simpl.
  rewrite app_nil_r.
  assert (ss !! n = Some (shard K sources (Z.of_nat n))) as Hn'
    by (apply shards_lookup; lia).
  assert (length (returned e <$> take n ss) = n) as Hlen.
  { rewrite length_fmap, length_take, shards_length. lia. }
  rewrite (worker_runs _ n (shard K sources (Z.of_nat n))
                       (shard K sources (Z.of_nat n)) []); simpl.
  - rewrite (take_S_r _ _ _ Hn'), (drop_S _ _ _ Hn'), !fmap_app. simpl.
    f_equal. rewrite <-app_assoc. simpl.
    rewrite insert_app_r_alt by lia. by rewrite Hlen, Nat.sub_diag.
  - done.
  - rewrite (drop_S _ _ _ Hn'). simpl.
    rewrite lookup_app_r by lia. by rewrite Hlen, Nat.sub_diag.
  - apply no_throw_shard.
Qed.

Lemma join_some (m j : nat) lg :
  (j + m)%nat = Z.to_nat K →
  exec (State (Joining j) (returned e <$> ss) lg None) (replicate m Main) =
    State (Joining (Z.to_nat K)) (returned e <$> ss) lg None.
Proof.
  revert j. induction m as [|m IH]; intros j Hj; simpl.
  - do 2 f_equal. lia.
  - unfold step_main at 1. simpl.
    rewrite list_lookup_fmap, shards_lookup by lia. simpl.
    unfold set_pc. simpl. apply IH. lia.
Qed.

Lemma run_sequential :
  run K e (Some sources) (sequential K sources) =
    State (Returned 0) (returned e <$> ss) (tool_status e <$> ss)
          (Some (Shell.sort (Shell.cat (run_tool_bytes e <$> ss)))).
Proof.
  unfold run, sequential. rewrite !foldl_app.
  rewrite spawn_all, workers_run by done.
  assert (length ss = Z.to_nat K) as Hlen by apply shards_length.
  rewrite <-Hlen, firstn_all, drop_all, app_nil_r. rewrite Hlen.
  replace (Z.to_nat K + 2)%nat with (Z.to_nat K + (1 + 1))%nat by lia.
  rewrite !replicate_add, !foldl_app.
  rewrite (join_some _ 0) by done. simpl.
  assert (step_main K sources
            (State (Joining (Z.to_nat K)) (returned e <$> ss)
                   (tool_status e <$> ss) None) =
          State Uniting (returned e <$> ss) (tool_status e <$> ss) None) as ->.
  { unfold step_main. simpl.
    by rewrite (proj2 (lookup_ge_None _ _)) by (rewrite length_fmap; lia). }
  unfold step_main. simpl.
  by rewrite <-list_fmap_compose.
Qed.
End Progress.

(** ** From the invariant to the report *)

Section ReportFacts.
Variables (K : Z) (e : env) (sources : list str).
Hypothesis K_pos : 1 ≤ K.

Lemma last_occurrence (c : ascii) (s : str) :
  c ∈ s → ∃ dir base, s = dir ++ c :: base ∧ c ∉ base.
Proof.
  induction s as [|x s IH]; intros Hc; [by apply elem_of_nil in Hc|].
  destruct (decide (c ∈ s)) as [Hin|Hout].
  - destruct (IH Hin) as (dir & base & -> & Hbase).
    by exists (x :: dir), base.
  - apply elem_of_cons in Hc as [->|]; [|done].
    by exists [], s.
Qed.

(** A path of ordinary length never makes the constructor throw. *)
Lemma ctor_total (u : str) :
  Z.of_nat (length u) ≤ Int.INT_MAX → is_Some (MyAstConsumer.ctor u).
Proof.
  intros Hlen. destruct (decide ("/"%char ∈ u)) as [Hin|Hout].
  - destruct (last_occurrence _ _ Hin) as (dir & base & -> & Hbase).
    rewrite ctor_last_slash; eauto.
  - rewrite ctor_no_slash; eauto.
Qed.

Lemma unit_output_total (u : str) :
  Z.of_nat (length u) ≤ Int.INT_MAX → is_Some (unit_output e u).
Proof.
  intros Hlen. unfold unit_output.
  destruct (analyze e u); [|by eexists].
  by destruct (ctor_total u Hlen) as [fn ->].
Qed.

Lemma run_returned sched status :
  main_pc (run K e (Some sources) sched) = Returned status →
  status = 0 ∧
  output_txt (run K e (Some sources) sched) =
    Some (Shell.sort (Shell.cat (run_tool_bytes e <$> shards K sources))).
Proof.
  intros Hpc. destruct (invariant_run K e sources K_pos sched) as [_ Hok].
  unfold pc_ok in Hok. rewrite Hpc in Hok. by intuition.
Qed.

(** The sinks of all threads, one after the other, are the output for
    the whole source list. *)
Lemma cat_sinks :
  Z.of_nat (length sources) ≤ Int.INT_MAX →
  Shell.cat (run_tool_bytes e <$> shards K sources) = run_tool_bytes e sources.
Proof.
  intros HN. unfold Shell.cat.
  by rewrite <-run_tool_bytes_concat, concat_shards.
Qed.

Lemma run_returned_report sched status :
  Z.of_nat (length sources) ≤ Int.INT_MAX →
  main_pc (run K e (Some sources) sched) = Returned status →
  output_txt (run K e (Some sources) sched) = Some (report e sources).
Proof.
  intros HN Hpc. apply run_returned in Hpc as [_ ->].
  by rewrite cat_sinks.
Qed.
End ReportFacts.

(** * The claims *)

(** ** Partitioning *)

(** C5: for an input list of any size N and any worker count K ≥ 1, the
    K vectors handed to the threads, concatenated in thread order, are
    the input list itself: order is kept, nothing is duplicated, nothing
    is left out. (N fits an [int], as [main] casts it.) *)
Theorem partition_complete {A} (K : Z) (sources : list A) :
  1 ≤ K → Z.of_nat (length sources) ≤ Int.INT_MAX →
  concat (shards K sources) = sources.
Proof. apply concat_shards. Qed.

Lemma partition_complete_witness :
  concat (shards kThreadsCount Sample.srcs) = Sample.srcs.
Proof.
  apply (partition_complete kThreadsCount Sample.srcs).
  - unfold kThreadsCount. lia.
  - vm_compute. discriminate.
Defined.

(** C6: the partition has exactly K vectors; vectors 0..K-2 hold
    floor(N/K) sources each and the last one holds the remaining
    N − (K−1)·floor(N/K); together, in order, they are the input list;
    for N = 5 and K = 2 they are [u0,u1] and [u2,u3,u4]. *)
Theorem partition_sizes {A} (K : Z) (sources : list A) :
  1 ≤ K → Z.of_nat (length sources) ≤ Int.INT_MAX →
  let N := Z.of_nat (length sources) in
  Z.of_nat (length (shards K sources)) = K ∧
  (∀ (i : nat) sh, shards K sources !! i = Some sh →
     Z.of_nat (length sh) =
       if Z.of_nat i <? K - 1 then N / K else N - (K - 1) * (N / K)) ∧
  concat (shards K sources) = sources ∧
  (∀ u0 u1 u2 u3 u4 : A,
     shards 2 [u0; u1; u2; u3; u4] = [[u0; u1]; [u2; u3; u4]]).
Proof.
  intros HK HN N. split; [rewrite shards_length; lia|].
  split; [|split; [by apply concat_shards|done]].
  intros i sh Hl.
  assert (Z.of_nat i < K) as Hi.
  { apply lookup_lt_Some in Hl. rewrite shards_length in Hl. lia. }
  rewrite shards_lookup in Hl by done. simplify_eq.
  destruct (Z.ltb_spec (Z.of_nat i) (K - 1)) as [Hlt|Hge].
  - apply shard_inner_length; lia.
  - replace (Z.of_nat i) with (K - 1) by lia. by apply shard_last_length.
Qed.

Lemma partition_sizes_witness :
  let N := Z.of_nat (length Sample.srcs) in
  Z.of_nat (length (shards kThreadsCount Sample.srcs)) = kThreadsCount ∧
  (∀ (i : nat) sh, shards kThreadsCount Sample.srcs !! i = Some sh →
     Z.of_nat (length sh) =
       if Z.of_nat i <? kThreadsCount - 1 then N / kThreadsCount
       else N - (kThreadsCount - 1) * (N / kThreadsCount)) ∧
  concat (shards kThreadsCount Sample.srcs) = Sample.srcs ∧
  (∀ u0 u1 u2 u3 u4 : str,
     shards 2 [u0; u1; u2; u3; u4] = [[u0; u1]; [u2; u3; u4]]).
Proof.
  apply (partition_sizes kThreadsCount Sample.srcs).
  - unfold kThreadsCount. lia.
  - vm_compute. discriminate.
Defined.

(** C7, as claimed: with fewer sources than threads the empty vectors
    are the trailing ones. One source and four threads refute it: the
    source goes to the last thread, after three empty vectors. *)
Lemma trailing_empty_shards_refuted :
  Z.of_nat (length [lit "u0"]) < kThreadsCount ∧
  shards kThreadsCount [lit "u0"] = [[]; []; []; [lit "u0"]] ∧
  ¬ empty_shards_trail (shards kThreadsCount [lit "u0"]).
Proof.
  split; [done|]. split; [done|].
  intros Htrail. by specialize (Htrail 0%nat 3%nat [lit "u0"] ltac:(lia) eq_refl eq_refl).
Qed.

(** C7, amended: with fewer sources than threads (N < K) the vectors
    0..K-2 are empty and the last vector is the whole input list; a
    worker whose vector is empty writes nothing to its sink, so it
    contributes no line. *)
Theorem small_input_goes_to_last_shard {A} (K : Z) (sources : list A) :
  1 ≤ K → Z.of_nat (length sources) ≤ Int.INT_MAX →
  Z.of_nat (length sources) < K →
  (∀ i, 0 ≤ i < K - 1 → shard K sources i = []) ∧
  shard K sources (K - 1) = sources ∧
  (∀ e, run_tool_bytes e [] = [] ∧ Shell.lines (run_tool_bytes e []) = []).
Proof.
  intros HK HN Hlt.
  assert (chunk_size K sources = 0) as Hc.
  { rewrite chunk_size_div by done. apply Z.div_small. lia. }
  split; [|split; [|done]].
  - intros i Hi. rewrite shard_inner, Hc by done. done.
  - rewrite shard_last, Hc, Z.mul_0_r by done. done.
Qed.

Lemma small_input_goes_to_last_shard_witness :
  (∀ i, 0 ≤ i < kThreadsCount - 1 → shard kThreadsCount [lit "u0"] i = []) ∧
  shard kThreadsCount [lit "u0"] (kThreadsCount - 1) = [lit "u0"] ∧
  (∀ e, run_tool_bytes e [] = [] ∧ Shell.lines (run_tool_bytes e []) = []).
Proof.
  apply (small_input_goes_to_last_shard kThreadsCount [lit "u0"]).
  - unfold kThreadsCount. lia.
  - vm_compute. discriminate.
  - vm_compute. reflexivity.
Defined.

(** ** The consumer *)

Lemma StronglySorted_weaken {A} (R1 R2 : relation A) (l : list A) :
  (∀ x y, R1 x y → R2 x y) → StronglySorted R1 l → StronglySorted R2 l.
Proof.
  intros HR. induction 1 as [|x l _ IH Hx]; constructor; [done|].
  eapply Forall_impl; eauto.
Qed.

(** C10: when the identifier of a unit is a path with a '/' in it, the
    display name is what follows the last '/'; an identifier without
    '/' is the display name as it is; and the line written for the unit
    starts with that display name. (Paths no longer than [INT_MAX], the
    range of [last_slash_pos].) *)
Theorem display_name_is_basename (filename : str) :
  Z.of_nat (length filename) ≤ Int.INT_MAX →
  (∀ dir base, filename = dir ++ "/"%char :: base → "/"%char ∉ base →
     MyAstConsumer.ctor filename = Some base) ∧
  ("/"%char ∉ filename → MyAstConsumer.ctor filename = Some filename) ∧
  (∀ e names name,
     analyze e filename = Some names →
     MyAstConsumer.ctor filename = Some name →
     unit_output e filename =
       Some (name ++ flat_map (λ n, " "%char :: n)
                       (MyAstConsumer.std_sort (char_is_signed e) names)
                  ++ [Shell.nl])).
Proof.
  intros Hlen. split; [|split].
  - intros dir base -> Hbase. by apply ctor_last_slash.
  - apply ctor_no_slash.
  - intros e names name Hn Hc. unfold unit_output. by rewrite Hn, Hc.
Qed.

Lemma display_name_is_basename_witness :
  (∀ dir base, lit "x/y/b.cpp" = dir ++ "/"%char :: base → "/"%char ∉ base →
     MyAstConsumer.ctor (lit "x/y/b.cpp") = Some base) ∧
  ("/"%char ∉ lit "x/y/b.cpp" →
     MyAstConsumer.ctor (lit "x/y/b.cpp") = Some (lit "x/y/b.cpp")) ∧
  (∀ e names name,
     analyze e (lit "x/y/b.cpp") = Some names →
     MyAstConsumer.ctor (lit "x/y/b.cpp") = Some name →
     unit_output e (lit "x/y/b.cpp") =
       Some (name ++ flat_map (λ n, " "%char :: n)
                       (MyAstConsumer.std_sort (char_is_signed e) names)
                  ++ [Shell.nl])).
Proof.
  apply (display_name_is_basename (lit "x/y/b.cpp")).
  vm_compute. discriminate.
Defined.

(** C4: the facts of one unit are written in the order of the
    comparator: a permutation of the collected names, sorted by the
    lexicographic order of their case-folded characters, where a name
    that is, up to case, a proper prefix of another (a tie on all the
    characters they share) comes first, i.e. by ascending length.
    Whatever sorted permutation [std::sort] picks, its case-folded
    image is this one. The comparator only ever sees the names of the
    unit being flushed: the bytes written for a unit depend on no other
    unit's names. The names Zeta, apple, Be come out as apple, Be,
    Zeta. *)
Theorem facts_normalized_per_unit (sgn : bool) (names : list str) :
  let out := MyAstConsumer.std_sort sgn names in
  out ≡ₚ names ∧
  StronglySorted (λ a b, ¬ caseless_lt sgn b a) out ∧
  (∀ a b, MyAstConsumer.names_lt sgn a b = true ↔ caseless_lt sgn a b) ∧
  (∀ a a' ext, casefold sgn a = casefold sgn a' → ext ≠ [] →
     MyAstConsumer.names_lt sgn a (a' ++ ext) = true ∧
     MyAstConsumer.names_lt sgn (a' ++ ext) a = false) ∧
  (∀ out', out' ≡ₚ names →
     StronglySorted (MyAstConsumer.names_le sgn) out' →
     casefold sgn <$> out' = casefold sgn <$> out) ∧
  (∀ name,
     MyAstConsumer.flushToFile sgn name names =
       name ++ flat_map (λ n, " "%char :: n) out ++ [Shell.nl]) ∧
  (∀ e e' u,
     char_is_signed e = char_is_signed e' → analyze e u = analyze e' u →
     unit_output e u = unit_output e' u) ∧
  MyAstConsumer.std_sort sgn [lit "Zeta"; lit "apple"; lit "Be"] =
    [lit "apple"; lit "Be"; lit "Zeta"].
Proof.
  intros out. split; [apply std_sort_perm|].
  split.
  { eapply StronglySorted_weaken; [|apply std_sort_sorted].
    intros a b. by rewrite names_le_spec. }
  split; [apply names_lt_spec|].
  split.
  { intros a a' ext Hfold Hext.
    assert (lex_lt (casefold sgn a) (casefold sgn (a' ++ ext))) as Hlt.
    { unfold casefold in *. rewrite fmap_app, <-Hfold.
      destruct ext as [|x ext]; [done|]. simpl.
      clear Hfold. induction a as [|y a IH]; simpl; by constructor. }
    split; [by apply names_lt_spec|].
    apply not_true_is_false. rewrite names_lt_spec. intros Hgt.
    by eapply lex_lt_irrefl, lex_lt_trans. }
  split.
  { intros out' Hperm Hsorted. apply sorted_casefold_unique; [done| |].
    - apply std_sort_sorted.
    - unfold out. by rewrite Hperm, std_sort_perm. }
  split; [done|].
  split.
  { intros e e' u Hs Ha. unfold unit_output. by rewrite Hs, Ha. }
  by destruct sgn.
Qed.

(** ** The run *)

(** C9: in every run, under every schedule, the main thread stands at
    the shell command, or [output.txt] has been written, only when all K
    threads have been spawned and have returned from [run_tool], each
    with nothing left to do and with the whole output of its vector in
    its sink: the sinks are never read half-written. *)
Theorem merge_waits_for_all_workers (K : Z) (e : env) (sources : list str)
    (sched : list actor) :
  1 ≤ K →
  let s := run K e (Some sources) sched in
  main_pc s = Uniting ∨ is_Some (output_txt s) →
  Z.of_nat (length (threads s)) = K ∧
  (∀ t th, threads s !! t = Some th →
     finished th = true ∧ todo th = [] ∧
     sink th = run_tool_bytes e (shard K sources (Z.of_nat t))) ∧
  sink <$> threads s = run_tool_bytes e <$> shards K sources.
Proof.
  intros HK s Hmerge.
  pose proof (invariant_run K e sources HK sched) as Hinv.
  fold s in Hinv. pose proof Hinv as [Hth Hpc].
  assert (Z.of_nat (length (threads s)) = K ∧ joined s (length (threads s)))
    as [Hlen Hj].
  { unfold pc_ok in Hpc. destruct Hmerge as [Hu|[r Hr]].
    - rewrite Hu in Hpc. by intuition.
    - destruct (main_pc s).
      + destruct Hpc as (_ & _ & Hnone). congruence.
      + destruct Hpc as (_ & _ & Hnone). congruence.
      + by intuition.
      + by intuition.
      + congruence. }
  split; [done|]. split.
  - intros t th Hl.
    assert (finished th = true) as Hfin.
    { eapply Hj; [|done]. by eapply lookup_lt_Some. }
    split; [done|]. by eapply thread_ok_finished; eauto.
  - by apply sinks_complete.
Qed.

Lemma merge_waits_for_all_workers_witness :
  let s := run kThreadsCount Sample.e (Some Sample.srcs) Sample.interleaved in
  Z.of_nat (length (threads s)) = kThreadsCount ∧
  (∀ t th, threads s !! t = Some th →
     finished th = true ∧ todo th = [] ∧
     sink th = run_tool_bytes Sample.e (shard kThreadsCount Sample.srcs (Z.of_nat t))) ∧
  sink <$> threads s = run_tool_bytes Sample.e <$> shards kThreadsCount Sample.srcs.
Proof.
  apply (merge_waits_for_all_workers kThreadsCount Sample.e Sample.srcs
           Sample.interleaved).
  - unfold kThreadsCount. lia.
  - right. vm_compute. eexists. reflexivity.
Defined.

(** C3: for a fixed source list, fixed per-unit analysis results and a
    fixed K, any two runs that return from [main] have written the same
    bytes to [output.txt], whatever the two schedules; and a run that
    returns exists. *)
Theorem report_is_schedule_independent (K : Z) (e : env) (sources : list str)
    (sched1 sched2 : list actor) (status1 status2 : Z) :
  1 ≤ K →
  main_pc (run K e (Some sources) sched1) = Returned status1 →
  main_pc (run K e (Some sources) sched2) = Returned status2 →
  is_Some (output_txt (run K e (Some sources) sched1)) ∧
  output_txt (run K e (Some sources) sched1) =
    output_txt (run K e (Some sources) sched2) ∧
  (Forall (λ u, Z.of_nat (length u) ≤ Int.INT_MAX) sources →
   main_pc (run K e (Some sources) (sequential K sources)) = Returned 0).
Proof.
  intros HK H1 H2.
  apply run_returned in H1 as [_ ->]; [|done].
  apply run_returned in H2 as [_ ->]; [|done].
  split; [by eexists|]. split; [done|].
  intros Hlen. rewrite run_sequential; [done..|].
  eapply Forall_impl; [done|]. intros u. apply unit_output_total.
Qed.

Lemma report_is_schedule_independent_witness :
  is_Some (output_txt (run kThreadsCount Sample.e (Some Sample.srcs)
                           Sample.interleaved)) ∧
  output_txt (run kThreadsCount Sample.e (Some Sample.srcs) Sample.interleaved) =
    output_txt (run kThreadsCount Sample.e (Some Sample.srcs)
                    (sequential kThreadsCount Sample.srcs)) ∧
  (Forall (λ u, Z.of_nat (length u) ≤ Int.INT_MAX) Sample.srcs →
   main_pc (run kThreadsCount Sample.e (Some Sample.srcs)
                (sequential kThreadsCount Sample.srcs)) = Returned 0).
Proof.
  apply (report_is_schedule_independent kThreadsCount Sample.e Sample.srcs
           Sample.interleaved (sequential kThreadsCount Sample.srcs) 0 0).
  - unfold kThreadsCount. lia.
  - vm_compute. reflexivity.
  - vm_compute. reflexivity.
Defined.

(** C1, as claimed: for every input unit list the lines of the report
    are the rendered lines of the records, in byte-wise order. A file
    name with a newline in it refutes that: the record of [torn] is
    written unescaped, [sort] takes it for two lines and puts its
    second half first, before its first half and apart from it. *)
Lemma torn_record_refutes_sorted_records :
  let s := main Newline.e (Some Newline.srcs)
                (sequential kThreadsCount Newline.srcs) in
  main_pc s = Returned 0 ∧
  records Newline.e Newline.srcs =
    [lit "b" ++ [Shell.nl] ++ lit "a.cpp x"; lit "c.cpp x"] ∧
  output_txt s =
    Some (Shell.unlines [lit "a.cpp x"; lit "b"; lit "c.cpp x"]) ∧
  ¬ report_is_sorted_records Newline.e Newline.srcs
      (sequential kThreadsCount Newline.srcs).
Proof.
  assert (output_txt (main Newline.e (Some Newline.srcs)
                           (sequential kThreadsCount Newline.srcs)) =
          Some (Shell.unlines [lit "a.cpp x"; lit "b"; lit "c.cpp x"]))
    as Hout by (vm_compute; reflexivity).
  split; [by vm_compute|]. split; [by vm_compute|]. split; [exact Hout|].
  intros Hclaim. destruct (Hclaim _ Hout) as [Hperm _].
  apply Permutation_length in Hperm. vm_compute in Hperm. discriminate.
Qed.

(** C1, amended: for every unit list in which no path and no collected
    name holds a newline, in every run that returns from [main],
    [output.txt] is the result of one [sort] over the concatenated
    sinks; its lines are the records of the units (display name, then
    the normalised facts), and they stand in the order [sort] gives to
    whole lines, which is the byte-wise lexicographic one where [sort]
    compares bytes. The order comes from that one [sort] alone: the same
    records arriving in any other order give the same bytes. *)
Theorem report_sorted_bytewise (K : Z) (e : env) (sources : list str)
    (sched : list actor) (status : Z) :
  1 ≤ K → Z.of_nat (length sources) ≤ Int.INT_MAX →
  Forall (newline_free e) sources →
  main_pc (run K e (Some sources) sched) = Returned status →
  ∃ r, output_txt (run K e (Some sources) sched) = Some r ∧
       r = Shell.sort (run_tool_bytes e sources) ∧
       Shell.lines r ≡ₚ records e sources ∧
       StronglySorted (λ a b, ¬ lex_lt (byte_val <$> b) (byte_val <$> a))
                      (Shell.lines r) ∧
       (∀ input, Shell.lines input ≡ₚ records e sources →
                 Shell.sort input = r).
Proof.
  intros HK HN Hnl Hpc. exists (report e sources).
  split; [by eapply run_returned_report|]. split; [done|].
  split; [|split].
  - unfold report. by rewrite lines_sort_perm, lines_run_tool_bytes.
  - eapply StronglySorted_weaken; [|apply lines_sort_sorted].
    intros a b. by rewrite bytes_le_spec.
  - intros input Hin. apply sort_perm_invariant.
    by rewrite Hin, lines_run_tool_bytes.
Qed.

Lemma report_sorted_bytewise_witness :
  ∃ r, output_txt (run kThreadsCount Sample.e (Some Sample.srcs)
                       Sample.interleaved) = Some r ∧
       r = Shell.sort (run_tool_bytes Sample.e Sample.srcs) ∧
       Shell.lines r ≡ₚ records Sample.e Sample.srcs ∧
       StronglySorted (λ a b, ¬ lex_lt (byte_val <$> b) (byte_val <$> a))
                      (Shell.lines r) ∧
       (∀ input, Shell.lines input ≡ₚ records Sample.e Sample.srcs →
                 Shell.sort input = r).
Proof.
  apply (report_sorted_bytewise kThreadsCount Sample.e Sample.srcs
           Sample.interleaved 0).
  - unfold kThreadsCount. lia.
  - vm_compute. discriminate.
  - apply (bool_decide_unpack _). vm_compute. exact I.
  - vm_compute. reflexivity.
Defined.




(** C2, as claimed: a failing worker makes the process exit with a
    non-zero status. It does not: with [ClangTool::run] reporting 1 in
    every thread, the statuses are printed and [main] returns 0. *)
Lemma worker_failure_not_surfaced :
  let s := main Sample.e_fail (Some Sample.srcs)
                (sequential kThreadsCount Sample.srcs) in
  log s = [1; 1; 1; 1] ∧ main_pc s = Returned 0 ∧
  ¬ failure_surfaces Sample.e_fail Sample.srcs
      (sequential kThreadsCount Sample.srcs).
Proof.
  split; [by vm_compute|]. split; [by vm_compute|].
  intros Hclaim. apply (Hclaim 0); [by vm_compute| |done].
  apply Exists_exists. exists (shard kThreadsCount Sample.srcs 0).
  split; [|done]. apply list_elem_of_lookup. by exists 0%nat.
Qed.

Lemma unit_output_same_analysis (e e' : env) (u : str) :
  char_is_signed e' = char_is_signed e → (∀ u, analyze e' u = analyze e u) →
  unit_output e' u = unit_output e u.
Proof. intros Hs Ha. unfold unit_output. by rewrite Hs, Ha. Qed.

(** The statuses of [ClangTool::run] reach the log and nothing else. *)
Lemma step_same_but_log K (e e' : env) sources s s' a :
  char_is_signed e' = char_is_signed e → (∀ u, analyze e' u = analyze e u) →
  same_but_log s s' →
  same_but_log (step K e sources s a) (step K e' sources s' a).
Proof.
  intros Hs Ha (Hpc & Hth & Hout).
  destruct s as [p ths lg out], s' as [p' ths' lg' out']. simpl in *. subst.
  destruct a as [|t]; simpl.
  - unfold step_main. simpl. destruct p' as [i|j| | |]; simpl; try done.
    + by destruct (i <? K).
    + destruct (ths' !! j) as [th|]; [|done]. by destruct (finished th).
  - unfold step_worker. simpl. destruct (halted p'); [done|].
    destruct (ths' !! t) as [th|]; [|done].
    destruct (finished th); [done|].
    destruct (todo th) as [|u rest]; [done|].
    rewrite (unit_output_same_analysis e e' u Hs Ha).
    by destruct (unit_output e u).
Qed.

Lemma run_same_but_log K (e e' : env) argv sched :
  char_is_signed e' = char_is_signed e → (∀ u, analyze e' u = analyze e u) →
  same_but_log (run K e argv sched) (run K e' argv sched).
Proof.
  intros Hs Ha. unfold run. destruct argv as [sources|]; [|done].
  assert (same_but_log initial initial) as Hinit by done.
  revert Hinit. generalize initial at 1 3. generalize initial.
  induction sched as [|a sched IH]; intros s' s Hsame; [done|].
  simpl. by apply IH, step_same_but_log.
Qed.

(** C2, amended: [main] returns 1 exactly when the option parser cannot
    be created and 0 otherwise; the status [ClangTool::run] reports in a
    worker is only printed and never changes the exit status: with any
    other statuses, and the analysis results the same, the run returns
    the same status. *)
Theorem exit_status_reflects_parser_only (e : env) (argv : option (list str))
    (sched : list actor) (status : Z) :
  main_pc (main e argv sched) = Returned status →
  status = match argv with Some _ => 0 | None => 1 end ∧
  (∀ e', char_is_signed e' = char_is_signed e →
         (∀ u, analyze e' u = analyze e u) →
         main_pc (main e' argv sched) = Returned status).
Proof.
  unfold main. intros Hpc. split.
  - destruct argv as [sources|].
    + by apply run_returned in Hpc as [-> _].
    + simpl in *. by simplify_eq.
  - intros e' Hs Ha.
    destruct (run_same_but_log kThreadsCount e e' argv sched Hs Ha) as (<- & _).
    exact Hpc.
Qed.

Lemma exit_status_reflects_parser_only_witness :
  0 = 0 ∧
  (∀ e', char_is_signed e' = char_is_signed Sample.e_fail →
         (∀ u, analyze e' u = analyze Sample.e_fail u) →
         main_pc (main e' (Some Sample.srcs) Sample.interleaved) = Returned 0).
Proof.
  apply (exit_status_reflects_parser_only Sample.e_fail (Some Sample.srcs)
           Sample.interleaved 0).
  vm_compute. reflexivity.
Defined.

(** * Further properties of the code *)

(** ** The display name *)

(** X1: the display name the constructor computes holds no '/', and
    so the constructor maps it to itself. (Paths within [INT_MAX].) *)
Theorem display_name_has_no_slash (u name : str) :
  Z.of_nat (length u) ≤ Int.INT_MAX →
  MyAstConsumer.ctor u = Some name →
  ("/"%char ∉ name) ∧ MyAstConsumer.ctor name = Some name.
Proof.
  intros Hlen Hc.
  assert ("/"%char ∉ name) as Hname.
  { destruct (decide ("/"%char ∈ u)) as [Hin|Hout].
    - destruct (last_occurrence _ _ Hin) as (dir & base & -> & Hbase).
      rewrite ctor_last_slash in Hc by done. by simplify_eq.
    - rewrite ctor_no_slash in Hc by done. by simplify_eq. }
  split; [done|]. by apply ctor_no_slash.
Qed.

Lemma display_name_has_no_slash_witness :
  ("/"%char ∉ lit "b.cpp") ∧
  MyAstConsumer.ctor (lit "b.cpp") = Some (lit "b.cpp").
Proof.
  apply (display_name_has_no_slash (lit "x/y/b.cpp") (lit "b.cpp")).
  - vm_compute. discriminate.
  - vm_compute. reflexivity.
Defined.

(** X2: the directory of a unit leaves no trace: two paths with the
    same last component, for which the visitor collects the same names,
    are written as the same line. *)
Theorem same_basename_same_line (e : env) (dir1 dir2 base : str) :
  let path1 := dir1 ++ "/"%char :: base in
  let path2 := dir2 ++ "/"%char :: base in
  Z.of_nat (length path1) ≤ Int.INT_MAX →
  Z.of_nat (length path2) ≤ Int.INT_MAX →
  "/"%char ∉ base →
  analyze e path1 = analyze e path2 →
  unit_output e path1 = unit_output e path2 ∧
  record_of e path1 = record_of e path2 ∧
  (analyze e base = analyze e path1 → unit_output e base = unit_output e path1).
Proof.
  intros path1 path2 H1 H2 Hbase Ha.
  unfold unit_output, record_of. rewrite <-Ha.
  unfold path1, path2. rewrite !ctor_last_slash by done.
  split; [done|]. split; [done|].
  intros ->. by rewrite ctor_no_slash.
Qed.

Lemma same_basename_same_line_witness :
  unit_output Sample.e (lit "x/b.cpp") = unit_output Sample.e (lit "y/z/b.cpp") ∧
  record_of Sample.e (lit "x/b.cpp") = record_of Sample.e (lit "y/z/b.cpp") ∧
  (analyze Sample.e (lit "b.cpp") = analyze Sample.e (lit "x/b.cpp") →
   unit_output Sample.e (lit "b.cpp") = unit_output Sample.e (lit "x/b.cpp")).
Proof.
  apply (same_basename_same_line Sample.e (lit "x") (lit "y/z") (lit "b.cpp")).
  - vm_compute. discriminate.
  - vm_compute. discriminate.
  - apply (bool_decide_unpack _). vm_compute. exact I.
  - vm_compute. reflexivity.
Defined.

(** ** The comparator *)

Lemma names_lt_casefold sgn (a a' b b' : str) :
  casefold sgn a = casefold sgn a' → casefold sgn b = casefold sgn b' →
  MyAstConsumer.names_lt sgn a b = MyAstConsumer.names_lt sgn a' b'.
Proof.
  intros Ha Hb.
  pose proof (names_lt_spec sgn a b) as H1.
  pose proof (names_lt_spec sgn a' b') as H2.
  unfold caseless_lt in *. rewrite Ha, Hb in H1.
  destruct (MyAstConsumer.names_lt sgn a b), (MyAstConsumer.names_lt sgn a' b');
    try done; intuition.
Qed.

Lemma equivalent_casefold sgn (a b : str) :
  equivalent sgn a b ↔ casefold sgn a = casefold sgn b.
Proof.
  unfold equivalent. split.
  - intros [Hab Hba].
    destruct (lex_lt_trichotomy (casefold sgn a) (casefold sgn b))
      as [Hlt|[Heq|Hlt]]; [|done|].
    + apply names_lt_spec in Hlt. congruence.
    + apply names_lt_spec in Hlt. congruence.
  - intros Heq. split.
    + rewrite (names_lt_casefold sgn a b b b) by done. apply names_lt_irrefl.
    + rewrite (names_lt_casefold sgn b b a b) by done. apply names_lt_irrefl.
Qed.

(** X3: the lambda is a strict weak ordering, which [std::sort]
    requires of its comparator: irreflexive, asymmetric, transitive, and
    with a transitive equivalence. *)
Theorem comparator_strict_weak_order (sgn : bool) :
  (∀ a, MyAstConsumer.names_lt sgn a a = false) ∧
  (∀ a b, MyAstConsumer.names_lt sgn a b = true →
          MyAstConsumer.names_lt sgn b a = false) ∧
  (∀ a b c, MyAstConsumer.names_lt sgn a b = true →
            MyAstConsumer.names_lt sgn b c = true →
            MyAstConsumer.names_lt sgn a c = true) ∧
  (∀ a b c, equivalent sgn a b → equivalent sgn b c → equivalent sgn a c).
Proof.
  split; [apply names_lt_irrefl|]. split; [|split].
  - intros a b Hab. apply not_true_is_false. intros Hba.
    apply names_lt_spec in Hab, Hba.
    by eapply lex_lt_irrefl, lex_lt_trans.
  - intros a b c Hab Hbc. apply names_lt_spec in Hab, Hbc.
    apply names_lt_spec. by eapply lex_lt_trans.
  - intros a b c. rewrite !equivalent_casefold. congruence.
Qed.

Lemma casefold_lower sgn (a : str) : casefold sgn (lower a) = casefold sgn a.
Proof.
  unfold casefold, lower. rewrite <-list_fmap_compose.
  apply list_fmap_ext. intros _ c _. simpl.
  unfold lower_char.
  destruct ((65 <=? byte_val c) && (byte_val c <=? 90)) eqn:Hup; [|done].
  apply andb_true_iff in Hup as [H1 H2]. apply Z.leb_le in H1, H2.
  assert (byte_val (ascii_of_N (N_of_ascii c + 32)) = byte_val c + 32) as Hb.
  { unfold byte_val in *. rewrite N_ascii_embedding by lia. lia. }
  unfold char_val. rewrite Hb.
  replace (128 <=? byte_val c + 32) with false by (symmetry; apply Z.leb_gt; lia).
  replace (128 <=? byte_val c) with false by (symmetry; apply Z.leb_gt; lia).
  rewrite !andb_false_r. unfold tolower.
  replace (65 <=? byte_val c) with true by (symmetry; by apply Z.leb_le).
  replace (byte_val c <=? 90) with true by (symmetry; by apply Z.leb_le).
  replace (byte_val c + 32 <=? 90) with false by (symmetry; apply Z.leb_gt; lia).
  by rewrite andb_false_r.
Qed.

(** X4: the comparator does not see the case of ASCII letters:
    lower-casing either argument changes no answer; two names are
    equivalent for it exactly when their case-folded images are equal,
    and then they have the same length. *)
Theorem comparator_ignores_case (sgn : bool) (a b : str) :
  MyAstConsumer.names_lt sgn (lower a) b = MyAstConsumer.names_lt sgn a b ∧
  MyAstConsumer.names_lt sgn a (lower b) = MyAstConsumer.names_lt sgn a b ∧
  equivalent sgn a (lower a) ∧
  (equivalent sgn a b ↔ casefold sgn a = casefold sgn b) ∧
  (equivalent sgn a b → length a = length b).
Proof.
  split; [by apply names_lt_casefold; rewrite ?casefold_lower|].
  split; [by apply names_lt_casefold; rewrite ?casefold_lower|].
  split; [by apply equivalent_casefold; rewrite casefold_lower|].
  split; [apply equivalent_casefold|].
  intros Heq. apply equivalent_casefold in Heq.
  apply (f_equal length) in Heq. unfold casefold in Heq.
  by rewrite !length_fmap in Heq.
Qed.

Lemma NoDup_fmap_inj_on {A B} (f : A → B) (l : list A) x y :
  NoDup (f <$> l) → x ∈ l → y ∈ l → f x = f y → x = y.
Proof.
  induction l as [|z l IH]; intros Hnd Hx Hy Hf; [by apply elem_of_nil in Hx|].
  rewrite fmap_cons in Hnd. apply NoDup_cons in Hnd as [Hz Hnd].
  apply elem_of_cons in Hx as [->|Hx], Hy as [->|Hy]; [done| | |by apply IH].
  - destruct Hz. rewrite Hf. by apply list_elem_of_fmap_2.
  - destruct Hz. rewrite <-Hf. by apply list_elem_of_fmap_2.
Qed.

Lemma std_sort_order_independent sgn (names names' : list str) :
  names ≡ₚ names' → NoDup (casefold sgn <$> names) →
  MyAstConsumer.std_sort sgn names = MyAstConsumer.std_sort sgn names'.
Proof.
  intros Hperm Hnd.
  apply (StronglySorted_unique_strong (MyAstConsumer.names_le sgn)).
  - intros x1 x2 H1 H2 H12 H21.
    rewrite std_sort_perm in H1. rewrite std_sort_perm, <-Hperm in H2.
    apply (NoDup_fmap_inj_on (casefold sgn) names); [done..|].
    apply equivalent_casefold. by split.
  - apply std_sort_sorted.
  - apply std_sort_sorted.
  - by rewrite !std_sort_perm.
Qed.

(** X5: when no two names of a unit agree up to case, the line written
    for the unit does not depend on the order in which the names were
    collected. *)
Theorem line_independent_of_collection_order (sgn : bool) (name : str)
    (names names' : list str) :
  names ≡ₚ names' → NoDup (casefold sgn <$> names) →
  MyAstConsumer.flushToFile sgn name names =
    MyAstConsumer.flushToFile sgn name names'.
Proof.
  intros Hperm Hnd. unfold MyAstConsumer.flushToFile.
  by rewrite (std_sort_order_independent sgn names names').
Qed.

Lemma line_independent_of_collection_order_witness :
  MyAstConsumer.flushToFile true (lit "a.cpp") [lit "Zeta"; lit "apple"; lit "Be"] =
    MyAstConsumer.flushToFile true (lit "a.cpp") [lit "Be"; lit "Zeta"; lit "apple"].
Proof.
  apply (line_independent_of_collection_order true (lit "a.cpp")
           [lit "Zeta"; lit "apple"; lit "Be"] [lit "Be"; lit "Zeta"; lit "apple"]).
  - apply (bool_decide_unpack _). vm_compute. exact I.
  - apply (bool_decide_unpack _). vm_compute. exact I.
Defined.

(** ** The visitor *)

Section VisitorFacts.
Import MyAstVisitor.
Implicit Types (sub s : str) (d : VarDecl) (decls : list VarDecl).

Lemma starts_with_spec sub s :
  starts_with sub s = true ↔ ∃ r, s = sub ++ r.
Proof.
  revert s. induction sub as [|x sub IH]; intros s; simpl.
  - split; [by exists s|done].
  - destruct s as [|y s].
    + split; [done|]. by intros [r ?].
    + rewrite andb_true_iff, IH. split.
      * intros [Hxy [r ->]]. apply Ascii.eqb_eq in Hxy as ->. by exists r.
      * intros [r Hr]. simplify_eq. split; [apply Ascii.eqb_refl|by exists r].
Qed.

(** [str_find] answers [None] exactly when there is no occurrence. *)
Lemma str_find_None sub s :
  str_find sub s = None ↔ ∀ before after, s ≠ before ++ sub ++ after.
Proof.
  induction s as [|c s IH]; simpl.
  - destruct (starts_with sub []) eqn:Hst.
    + apply starts_with_spec in Hst as [r Hr]. split; [done|].
      intros Hno. destruct (Hno [] r). done.
    + split; [|done]. intros _ before after Heq.
      symmetry in Heq. apply app_eq_nil in Heq as [-> Heq]. simpl in Heq.
      assert (starts_with sub [] = true) as Habs
        by (apply starts_with_spec; by exists after).
      congruence.
  - destruct (starts_with sub (c :: s)) eqn:Hst.
    + apply starts_with_spec in Hst as [r Hr]. split; [done|].
      intros Hno. destruct (Hno [] r). done.
    + rewrite fmap_None, IH. split.
      * intros Hno before after Heq. destruct before as [|c' before].
        { assert (starts_with sub (c :: s) = true) as Habs
            by (apply starts_with_spec; by exists after).
          congruence. }
        simplify_eq/=. by eapply Hno.
      * intros Hno before after Heq. apply (Hno (c :: before) after).
        by rewrite Heq.
Qed.

(** The code's condition says what [kept] says. *)
Lemma keeps_spec d : keeps d = true ↔ kept d.
Proof.
  assert (isSingleParent d = true ↔ parents d = [TranslationUnitDecl])
    as Hsingle.
  { unfold isSingleParent. destruct (parents d) as [|[] [|??]]; by split. }
  assert (negb (is_c_linkage (getLanguageLinkage d)) = true ↔
          getLanguageLinkage d ≠ CLanguageLinkage) as Hlink.
  { destruct (getLanguageLinkage d); simpl; split; done. }
  assert (negb (bool_decide
                  (str_find (lit "::") (getQualifiedNameAsString d) ≠ None)) = true ↔
          ∀ before after,
            getQualifiedNameAsString d ≠ before ++ lit "::" ++ after) as Hdots.
  { rewrite negb_true_iff, bool_decide_eq_false, <-str_find_None.
    destruct (str_find (lit "::") (getQualifiedNameAsString d)) as [n|].
    - split; [intros H; by destruct H|done].
    - split; [done|]. intros _ H. by apply H. }
  assert (∀ (c : bool) (x : str),
            (if c then [] ++ [x] else []) ≠ [] ↔ c = true) as Hif
    by (intros [] ?; by split).
  unfold keeps, kept, VisitVarDecl. cbn [snd].
  rewrite bool_decide_eq_true, Hif, !andb_true_iff, Hsingle, Hlink, Hdots,
    !negb_true_iff.
  tauto.
Qed.

Lemma VisitVarDecl_keeps d (names : list str) :
  VisitVarDecl d names =
    (true, names ++ if keeps d then [getQualifiedNameAsString d] else []).
Proof.
  unfold keeps, VisitVarDecl. simpl. f_equal.
  match goal with |- (if ?c then _ else _) = _ => destruct c end; simpl.
  - done.
  - by rewrite app_nil_r.
Qed.

Lemma TraverseDecl_filter decls (names : list str) :
  TraverseDecl decls names =
    (true, names ++ (getQualifiedNameAsString <$>
                       filter (λ d, keeps d = true) decls)).
Proof.
  revert names. induction decls as [|d decls IH]; intros names.
  - simpl. by rewrite app_nil_r.
  - cbn [TraverseDecl]. rewrite VisitVarDecl_keeps. cbn beta iota.
    rewrite IH, filter_cons.
    destruct (keeps d) eqn:Hk.
    + rewrite decide_True by done. by rewrite <-app_assoc.
    + rewrite decide_False by done. by rewrite app_nil_r.
Qed.
End VisitorFacts.

(** X6: [VisitVarDecl] never stops the traversal; after it, the member
    [names_] has grown by the qualified names of exactly the
    declarations that are kept, in the order of the traversal, each as
    often as it is declared; and no collected name has "::" in it. *)
Theorem visitor_collects_kept_names (decls : list MyAstVisitor.VarDecl)
    (names : list str) :
  (MyAstVisitor.TraverseDecl decls names).1 = true ∧
  (MyAstVisitor.TraverseDecl decls names).2 =
    names ++ (MyAstVisitor.getQualifiedNameAsString <$>
                filter (λ d, keeps d = true) decls) ∧
  (∀ d, keeps d = true ↔ kept d) ∧
  (∀ n, n ∈ (MyAstVisitor.TraverseDecl decls []).2 →
     (∃ d, d ∈ decls ∧ kept d ∧ MyAstVisitor.getQualifiedNameAsString d = n) ∧
     ∀ before after, n ≠ before ++ lit "::" ++ after).
Proof.
  rewrite !TraverseDecl_filter. simpl.
  split; [done|]. split; [done|]. split; [apply keeps_spec|].
  intros n Hn. apply list_elem_of_fmap in Hn as (d & -> & Hd).
  apply list_elem_of_filter in Hd as [Hk Hd]. apply keeps_spec in Hk.
  split; [by exists d|]. apply Hk.
Qed.

(** X7: the line [HandleTranslationUnit] writes is made of the kept
    declarations alone: declarations the visitor rejects change
    nothing, and neither does the order of the declarations when no two
    kept names agree up to case. Each unit starts from a visitor
    without names. *)
Theorem unit_line_from_kept_declarations (sgn : bool) (name : str)
    (decls decls' : list MyAstVisitor.VarDecl) :
  let names := MyAstVisitor.getQualifiedNameAsString <$>
                 filter (λ d, keeps d = true) decls in
  HandleTranslationUnit sgn name decls =
    name ++ flat_map (λ n, " "%char :: n) (MyAstConsumer.std_sort sgn names)
         ++ [Shell.nl] ∧
  HandleTranslationUnit sgn name (filter (λ d, keeps d = true) decls) =
    HandleTranslationUnit sgn name decls ∧
  (decls ≡ₚ decls' → NoDup (casefold sgn <$> names) →
   HandleTranslationUnit sgn name decls' = HandleTranslationUnit sgn name decls).
Proof.
  intros names. unfold HandleTranslationUnit.
  rewrite !TraverseDecl_filter. simpl. split; [done|]. split.
  - by rewrite list_filter_filter_l by done.
  - intros Hperm Hnd. unfold MyAstConsumer.flushToFile. cbn zeta.
    symmetry. do 3 f_equal.
    apply std_sort_order_independent; [|done].
    unfold names. by rewrite Hperm.
Qed.

(** ** The partition *)

(** X8: the source at position [p] of the list is handed to thread
    [min (p / chunk_size) (K-1)] (to the last thread when [chunk_size]
    is 0), at position [p] minus the thread's begin index in its
    vector. *)
Theorem source_goes_to_owner {A} (K : Z) (sources : list A) (p : nat) (u : A) :
  1 ≤ K → Z.of_nat (length sources) ≤ Int.INT_MAX →
  sources !! p = Some u →
  let i := owner K sources (Z.of_nat p) in
  0 ≤ i < K ∧
  shard K sources i !! Z.to_nat (Z.of_nat p - begin_index K sources i) = Some u.
Proof.
  intros HK HN Hp i.
  destruct (chunk_size_bounds K sources HK HN) as [Hc0 HcK].
  assert (Z.of_nat p < Z.of_nat (length sources)) as Hlt
    by (apply lookup_lt_Some in Hp; lia).
  set (c := chunk_size K sources) in *.
  assert (0 ≤ i < K ∧ i * c ≤ Z.of_nat p ∧
          (i < K - 1 → Z.of_nat p - i * c < c)) as (Hi & Hlo & Hhi).
  { unfold i, owner. fold c. destruct (Z.eqb_spec c 0) as [Hz|Hz].
    - rewrite Hz. lia.
    - pose proof (Z.div_mod (Z.of_nat p) c Hz) as Hdm.
      pose proof (Z.mod_pos_bound (Z.of_nat p) c ltac:(lia)) as Hmod.
      assert (0 ≤ Z.of_nat p / c) by (apply Z.div_pos; lia).
      destruct (Z.min_spec (Z.of_nat p / c) (K - 1)) as [[Hm ->]|[Hm ->]]; nia. }
  split; [done|].
  rewrite begin_index_eq by done. fold c.
  assert (0 ≤ i * c) as Hic by nia.
  destruct (decide (i < K - 1)) as [Hinner|Hlast].
  - rewrite shard_inner by lia. fold c.
    rewrite lookup_take_lt by lia. rewrite lookup_drop.
    by replace (Z.to_nat (i * c) + Z.to_nat (Z.of_nat p - i * c))%nat with p by lia.
  - replace i with (K - 1) in * by lia.
    rewrite shard_last by done. fold c.
    rewrite lookup_drop.
    by replace (Z.to_nat ((K - 1) * c) + Z.to_nat (Z.of_nat p - (K - 1) * c))%nat
      with p by lia.
Qed.

Lemma source_goes_to_owner_witness :
  let i := owner kThreadsCount Sample.srcs (Z.of_nat 4) in
  0 ≤ i < kThreadsCount ∧
  shard kThreadsCount Sample.srcs i
    !! Z.to_nat (Z.of_nat 4 - begin_index kThreadsCount Sample.srcs i) =
    Some (lit "q/0.cpp").
Proof.
  apply (source_goes_to_owner kThreadsCount Sample.srcs 4 (lit "q/0.cpp")).
  - unfold kThreadsCount. lia.
  - vm_compute. discriminate.
  - reflexivity.
Defined.

(** X9: the last thread gets floor(N/K) + (N mod K) sources, so fewer
    than K more than any other thread; when K divides N all threads get
    the same number. *)
Theorem last_shard_takes_remainder {A} (K : Z) (sources : list A) :
  1 ≤ K → Z.of_nat (length sources) ≤ Int.INT_MAX →
  let N := Z.of_nat (length sources) in
  Z.of_nat (length (shard K sources (K - 1))) = N / K + N mod K ∧
  (∀ i, 0 ≤ i < K - 1 →
     0 ≤ Z.of_nat (length (shard K sources (K - 1)))
         - Z.of_nat (length (shard K sources i)) < K) ∧
  (N mod K = 0 →
   ∀ i, 0 ≤ i < K → Z.of_nat (length (shard K sources i)) = N / K).
Proof.
  intros HK HN N.
  pose proof (Z.mod_eq N K ltac:(lia)) as Hmod.
  pose proof (Z.mod_pos_bound N K ltac:(lia)) as Hbound.
  assert (Z.of_nat (length (shard K sources (K - 1))) = N / K + N mod K) as Hlast.
  { rewrite shard_last_length by done. fold N. lia. }
  split; [done|]. split.
  - intros i Hi. rewrite Hlast, shard_inner_length by done. fold N. lia.
  - intros Hdiv i Hi. destruct (decide (i = K - 1)) as [->|Hne].
    + rewrite Hlast. lia.
    + apply shard_inner_length; [done..|lia].
Qed.

Lemma last_shard_takes_remainder_witness :
  let N := Z.of_nat (length Sample.srcs) in
  Z.of_nat (length (shard kThreadsCount Sample.srcs (kThreadsCount - 1))) =
    N / kThreadsCount + N mod kThreadsCount ∧
  (∀ i, 0 ≤ i < kThreadsCount - 1 →
     0 ≤ Z.of_nat (length (shard kThreadsCount Sample.srcs (kThreadsCount - 1)))
         - Z.of_nat (length (shard kThreadsCount Sample.srcs i)) < kThreadsCount) ∧
  (N mod kThreadsCount = 0 →
   ∀ i, 0 ≤ i < kThreadsCount →
        Z.of_nat (length (shard kThreadsCount Sample.srcs i)) = N / kThreadsCount).
Proof.
  apply (last_shard_takes_remainder kThreadsCount Sample.srcs).
  - unfold kThreadsCount. lia.
  - vm_compute. discriminate.
Defined.

(** ** Threads and their sinks *)

Section ThreadFacts.
Variables (K : Z) (e : env) (sources : list str).
Local Abbreviation exec := (foldl (step K e sources)).

(** One step leaves every thread but the one that moves as it is. *)
Lemma step_other_thread s a t th :
  threads s !! t = Some th → a ≠ Worker t →
  threads (step K e sources s a) !! t = Some th.
Proof.
  intros Hl Ha. destruct a as [|t']; simpl.
  - unfold step_main. destruct (main_pc s) as [i|j| | |]; simpl; try done.
    + destruct (i <? K); simpl; [|done].
      rewrite lookup_app_l; [done|]. by eapply lookup_lt_Some.
    + destruct (threads s !! j) as [th'|]; [|done].
      by destruct (finished th').
  - unfold step_worker. destruct (halted (main_pc s)); [done|].
    destruct (threads s !! t') as [th'|] eqn:Hl'; [|done].
    destruct (finished th'); [done|].
    assert (t' ≠ t) by congruence.
    destruct (todo th') as [|u rest]; simpl.
    + by rewrite list_lookup_insert_ne.
    + destruct (unit_output e u); simpl; [|done].
      by rewrite list_lookup_insert_ne.
Qed.

(** One step of any thread: a thread keeps its vector, its sink only
    grows at the end, its work list only shrinks from the front, and
    once it has returned it does not change any more. *)
Lemma step_thread_grows s a t th :
  threads s !! t = Some th →
  ∃ th', threads (step K e sources s a) !! t = Some th' ∧
         vec th' = vec th ∧ sink th `prefix_of` sink th' ∧
         todo th' `suffix_of` todo th ∧
         (finished th = true → th' = th).
Proof.
  intros Hl. destruct (decide (a = Worker t)) as [->|Hne].
  - simpl. unfold step_worker.
    destruct (halted (main_pc s)); [by exists th|].
    rewrite Hl. destruct (finished th) eqn:Hfin; [by exists th|].
    assert (t < length (threads s))%nat as Hlt by by eapply lookup_lt_Some.
    destruct (todo th) as [|u rest] eqn:Htodo; simpl.
    + eexists. rewrite list_lookup_insert_eq by done. simpl.
      split; [done|]. split; [done|]. split; [done|]. split; [done|done].
    + destruct (unit_output e u) as [b|]; simpl.
      * eexists. rewrite list_lookup_insert_eq by done. simpl.
        split; [done|]. split; [done|]. split; [by apply prefix_app_r|].
        split; [by apply suffix_cons_r|done].
      * exists th. by rewrite Htodo.
  - exists th. split; [by apply step_other_thread|done].
Qed.

Lemma exec_thread_grows sched s t th :
  threads s !! t = Some th →
  ∃ th', threads (exec s sched) !! t = Some th' ∧
         vec th' = vec th ∧ sink th `prefix_of` sink th' ∧
         todo th' `suffix_of` todo th ∧
         (finished th = true → th' = th).
Proof.
  revert s th. induction sched as [|a sched IH]; intros s th Hl; simpl.
  - by exists th.
  - destruct (step_thread_grows s a t th Hl) as (th1 & Hl1 & Hv1 & Hs1 & Ht1 & Hf1).
    destruct (IH _ _ Hl1) as (th2 & Hl2 & Hv2 & Hs2 & Ht2 & Hf2).
    exists th2. split; [done|]. split; [congruence|].
    split; [by etrans|]. split; [by etrans|].
    intros Hfin. rewrite Hf2; rewrite Hf1; done.
Qed.

Lemma exec_other_thread sched s t th :
  threads s !! t = Some th → Worker t ∉ sched →
  threads (exec s sched) !! t = Some th.
Proof.
  revert s. induction sched as [|a sched IH]; intros s Hl Hnot; [done|].
  apply not_elem_of_cons in Hnot as [Hne Hnot]. simpl.
  apply IH; [|done]. apply step_other_thread; [done|congruence].
Qed.

(** The printed statuses follow the threads that have returned. *)
Lemma filter_finished_insert (l : list thread) t th th' :
  l !! t = Some th → finished th = false →
  filter (λ th, finished th = true) (<[t := th']> l) ≡ₚ
    (if finished th' then [th'] else []) ++ filter (λ th, finished th = true) l.
Proof.
  intros Hl Hfin.
  rewrite insert_take_drop by by eapply lookup_lt_Some.
  rewrite <-(take_drop_middle l t th Hl) at 3.
  rewrite !filter_app, !filter_cons, Hfin.
  rewrite (decide_False (P := false = true)) by done.
  destruct (finished th') eqn:Hfin'.
  - rewrite decide_True by done. simpl. by rewrite <-Permutation_middle.
  - by rewrite decide_False.
Qed.

Lemma log_ok_step s a : log_ok e s → log_ok e (step K e sources s a).
Proof.
  unfold log_ok. intros Hlog. destruct a as [|t]; simpl.
  - unfold step_main. destruct (main_pc s) as [i|j| | |]; simpl; try done.
    + destruct (i <? K); simpl; [|done].
      rewrite filter_app, filter_cons, filter_nil. simpl.
      by rewrite app_nil_r.
    + destruct (threads s !! j) as [th'|]; [|done].
      by destruct (finished th').
  - unfold step_worker. destruct (halted (main_pc s)); [done|].
    destruct (threads s !! t) as [th|] eqn:Hl; [|done].
    destruct (finished th) eqn:Hfin; [done|].
    destruct (todo th) as [|u rest]; simpl.
    + rewrite (filter_finished_insert _ t th) by done. simpl.
      by rewrite Hlog, <-Permutation_cons_append.
    + destruct (unit_output e u); simpl; [|done].
      by rewrite (filter_finished_insert _ t th).
Qed.

Lemma log_ok_exec sched s : log_ok e s → log_ok e (exec s sched).
Proof.
  revert s. induction sched as [|a sched IH]; intros s Hlog; [done|].
  simpl. by apply IH, log_ok_step.
Qed.
End ThreadFacts.

(** X10: a thread's state is changed by its own steps only: whatever
    the other threads and the main thread do, as long as worker [t] is
    not scheduled its vector, work list and sink stay as they are. *)
Theorem threads_are_isolated (K : Z) (e : env) (sources : list str)
    (sched1 sched2 : list actor) (t : nat) (th : thread) :
  threads (run K e (Some sources) sched1) !! t = Some th →
  Worker t ∉ sched2 →
  threads (run K e (Some sources) (sched1 ++ sched2)) !! t = Some th.
Proof.
  unfold run. rewrite foldl_app. apply exec_other_thread.
Qed.

Lemma threads_are_isolated_witness :
  threads (run kThreadsCount Sample.e (Some Sample.srcs)
               ([Main; Main; Main; Worker 1] ++ [Main; Worker 0; Worker 2; Main]))
    !! 1%nat =
  Some (Thread [lit "a.cpp"] [] (lit "a.cpp apple Be Zeta" ++ [Shell.nl]) false).
Proof.
  apply (threads_are_isolated kThreadsCount Sample.e Sample.srcs
           [Main; Main; Main; Worker 1] [Main; Worker 0; Worker 2; Main] 1).
  - vm_compute. reflexivity.
  - apply (bool_decide_unpack _). vm_compute. exact I.
Defined.

(** X11: sinks are append-only. Along any continuation of a run a
    thread keeps its vector, what it has written stays as a prefix of
    what it has written later, its work list only loses sources from
    the front, and a thread that has returned from [run_tool] is never
    touched again. *)
Theorem sinks_are_append_only (K : Z) (e : env) (sources : list str)
    (sched1 sched2 : list actor) (t : nat) (th : thread) :
  threads (run K e (Some sources) sched1) !! t = Some th →
  ∃ th', threads (run K e (Some sources) (sched1 ++ sched2)) !! t = Some th' ∧
         vec th' = vec th ∧ sink th `prefix_of` sink th' ∧
         todo th' `suffix_of` todo th ∧
         (finished th = true → th' = th).
Proof.
  unfold run. rewrite foldl_app. apply exec_thread_grows.
Qed.

Lemma sinks_are_append_only_witness :
  ∃ th', threads (run kThreadsCount Sample.e (Some Sample.srcs)
                      ([Main; Main; Main; Main; Worker 3] ++ [Worker 3; Worker 3]))
           !! 3%nat = Some th' ∧
         vec th' = vec (Thread [lit "e.cpp"; lit "q/0.cpp"] [lit "q/0.cpp"]
                          (lit "e.cpp apple Be Zeta" ++ [Shell.nl]) false) ∧
         sink (Thread [lit "e.cpp"; lit "q/0.cpp"] [lit "q/0.cpp"]
                 (lit "e.cpp apple Be Zeta" ++ [Shell.nl]) false)
           `prefix_of` sink th' ∧
         todo th' `suffix_of`
           todo (Thread [lit "e.cpp"; lit "q/0.cpp"] [lit "q/0.cpp"]
                   (lit "e.cpp apple Be Zeta" ++ [Shell.nl]) false) ∧
         (finished (Thread [lit "e.cpp"; lit "q/0.cpp"] [lit "q/0.cpp"]
                      (lit "e.cpp apple Be Zeta" ++ [Shell.nl]) false) = true →
          th' = Thread [lit "e.cpp"; lit "q/0.cpp"] [lit "q/0.cpp"]
                  (lit "e.cpp apple Be Zeta" ++ [Shell.nl]) false).
Proof.
  apply (sinks_are_append_only kThreadsCount Sample.e Sample.srcs
           [Main; Main; Main; Main; Worker 3] [Worker 3; Worker 3] 3).
  vm_compute. reflexivity.
Defined.

Lemma filter_all {A} (P : A → Prop) `{∀ x, Decision (P x)} (l : list A) :
  Forall P l → filter P l = l.
Proof.
  induction 1 as [|x l Hx _ IH]; [done|].
  by rewrite filter_cons_True, IH.
Qed.

(** X12: every worker prints the status of [ClangTool::run] exactly
    once, when it returns: at any moment the printed statuses are those
    of the threads that have returned, and when [main] returns they are,
    up to their order, the statuses of all K vectors. *)
Theorem statuses_printed_once (K : Z) (e : env) (sources : list str)
    (sched : list actor) :
  1 ≤ K →
  let s := run K e (Some sources) sched in
  log s ≡ₚ (λ th, tool_status e (vec th))
             <$> filter (λ th, finished th = true) (threads s) ∧
  (∀ status, main_pc s = Returned status →
             log s ≡ₚ tool_status e <$> shards K sources).
Proof.
  intros HK s.
  assert (log_ok e s) as Hlog.
  { unfold s, run. apply log_ok_exec. by unfold log_ok. }
  split; [done|]. intros status Hpc.
  pose proof (invariant_run K e sources HK sched) as Hinv. fold s in Hinv.
  pose proof Hinv as [Hth Hok].
  unfold pc_ok in Hok. rewrite Hpc in Hok. destruct Hok as (_ & Hlen & Hj & _).
  unfold log_ok in Hlog. rewrite Hlog. clear Hlog.
  assert (filter (λ th, finished th = true) (threads s) = threads s) as ->.
  { apply filter_all. apply Forall_lookup. intros t th Hl.
    eapply Hj; [|done]. by eapply lookup_lt_Some. }
  assert ((λ th, tool_status e (vec th)) <$> threads s =
          tool_status e <$> shards K sources) as ->; [|done].
  apply list_eq. intros t. rewrite !list_lookup_fmap.
  destruct (threads s !! t) as [th|] eqn:Hl; simpl.
  - assert (t < length (threads s))%nat by by eapply lookup_lt_Some.
    rewrite shards_lookup by lia. simpl.
    by destruct (Hth t th Hl) as (-> & _).
  - apply lookup_ge_None in Hl.
    rewrite (proj2 (lookup_ge_None _ _)); [done|]. rewrite shards_length. lia.
Qed.

Lemma statuses_printed_once_witness :
  let s := run kThreadsCount Sample.e_fail (Some Sample.srcs) Sample.interleaved in
  log s ≡ₚ (λ th, tool_status Sample.e_fail (vec th))
             <$> filter (λ th, finished th = true) (threads s) ∧
  (∀ status, main_pc s = Returned status →
             log s ≡ₚ tool_status Sample.e_fail <$> shards kThreadsCount Sample.srcs).
Proof.
  apply (statuses_printed_once kThreadsCount Sample.e_fail Sample.srcs
           Sample.interleaved).
  unfold kThreadsCount. lia.
Defined.

(** ** No schedule wedges the program *)

Section Completion.
Variables (K : Z) (e : env) (sources : list str).
Hypothesis K_pos : 1 ≤ K.
Hypothesis no_throw : Forall (λ u, is_Some (unit_output e u)) sources.
Local Abbreviation exec := (foldl (step K e sources)).

Lemma good_initial : good K e sources initial.
Proof. split; [by apply invariant_initial|done]. Qed.

Lemma good_step s a : good K e sources s → good K e sources (step K e sources s a).
Proof.
  intros [Hinv Hnt]. split.
  { destruct a; simpl;
      [by apply invariant_step_main|by apply invariant_step_worker]. }
  destruct a as [|t]; simpl.
  - unfold step_main.
    destruct (main_pc s) as [i|j| | |] eqn:Hpc; simpl; try done;
      try (by rewrite Hpc).
    + by destruct (i <? K).
    + destruct (threads s !! j) as [th|]; [|done].
      destruct (finished th); simpl; [done|]. by rewrite Hpc.
  - unfold step_worker. destruct (halted (main_pc s)); [done|].
    destruct (threads s !! t) as [th|] eqn:Hl; [|done].
    destruct (finished th); [done|].
    destruct (todo th) as [|u rest] eqn:Htodo; simpl; [done|].
    destruct (unit_output e u) as [b|] eqn:Hu; simpl; [done|].
    destruct (proj1 Hinv t th Hl) as (_ & (processed & Hsplit & _) & _).
    pose proof (no_throw_shard K e sources no_throw (Z.of_nat t)) as Hall.
    rewrite Hsplit, Htodo, Forall_app, Forall_cons in Hall.
    destruct Hall as (_ & [b Hb] & _). congruence.
Qed.

Lemma good_exec sched s : good K e sources s → good K e sources (exec s sched).
Proof.
  revert s. induction sched as [|a sched IH]; intros s Hg; [done|].
  simpl. by apply IH, good_step.
Qed.

Lemma not_spawning_step s a :
  spawning (main_pc s) = false →
  spawning (main_pc (step K e sources s a)) = false.
Proof.
  intros Hs. destruct a as [|t]; simpl.
  - unfold step_main.
    destruct (main_pc s) as [i|j| | |] eqn:Hpc; simpl; try done;
      try (by rewrite Hpc).
    destruct (threads s !! j) as [th|]; [|done].
    destruct (finished th); simpl; [done|]. by rewrite Hpc.
  - unfold step_worker. destruct (halted (main_pc s)); [done|].
    destruct (threads s !! t) as [th|]; [|done].
    destruct (finished th); [done|].
    destruct (todo th) as [|u rest]; simpl; [done|].
    by destruct (unit_output e u).
Qed.

Lemma not_spawning_exec sched s :
  spawning (main_pc s) = false → spawning (main_pc (exec s sched)) = false.
Proof.
  revert s. induction sched as [|a sched IH]; intros s Hs; [done|].
  simpl. by apply IH, not_spawning_step.
Qed.

Lemma threads_length s :
  good K e sources s → spawning (main_pc s) = false →
  Z.of_nat (length (threads s)) = K.
Proof.
  intros [[_ Hok] Hnt] Hs. unfold pc_ok in Hok.
  destruct (main_pc s); try done; by intuition.
Qed.

(** The main thread leaves the spawning loop. *)
Lemma spawn_done (n : nat) s :
  good K e sources s →
  (∀ i, main_pc s = Spawning i → K - i + 1 ≤ Z.of_nat n) →
  spawning (main_pc (exec s (replicate n Main))) = false.
Proof.
  revert s. induction n as [|n IH]; intros s Hg Hn; simpl.
  - destruct (main_pc s) as [i| | | |] eqn:Hs; try done.
    destruct Hg as [[_ Hok] _]. unfold pc_ok in Hok. rewrite Hs in Hok.
    specialize (Hn i eq_refl). lia.
  - apply IH; [apply (good_step s Main Hg)|].
    intros i'. unfold step_main.
    destruct (main_pc s) as [i|j| | |] eqn:Hs; simpl; try done.
    + destruct (Z.ltb_spec i K); simpl; [|done].
      intros [= <-]. specialize (Hn i eq_refl). lia.
    + destruct (threads s !! j) as [th|]; [|done].
      destruct (finished th); simpl; [done|]. by rewrite Hs.
    + by rewrite Hs.
    + by rewrite Hs.
Qed.

Lemma todo_length s t th :
  good K e sources s → threads s !! t = Some th →
  (length (todo th) ≤ length sources)%nat.
Proof.
  intros [[Hth _] _] Hl.
  destruct (Hth t th Hl) as (_ & (processed & Hsplit & _) & _).
  apply (f_equal length) in Hsplit. rewrite length_app in Hsplit.
  unfold shard, range in Hsplit. rewrite length_take, length_drop in Hsplit.
  lia.
Qed.

(** A worker scheduled often enough returns from [run_tool]. *)
Lemma worker_done (n : nat) s t th :
  good K e sources s → spawning (main_pc s) = false →
  threads s !! t = Some th → (length (todo th) + 1 ≤ n)%nat →
  ∃ th', threads (exec s (replicate n (Worker t))) !! t = Some th' ∧
         finished th' = true.
Proof.
  revert s th. induction n as [|n IH]; intros s th Hg Hs Hl Hn; [lia|].
  destruct (finished th) eqn:Hfin.
  { destruct (exec_thread_grows K e sources (replicate (S n) (Worker t)) s t th Hl)
      as (th' & Hl' & _ & _ & _ & Heq).
    exists th'. split; [done|]. by rewrite Heq. }
  assert (halted (main_pc s) = false) as Hhalt.
  { destruct Hg as [[_ Hok] Hnt]. unfold pc_ok in Hok.
    destruct (main_pc s) eqn:Hpc; try done.
    destruct Hok as (_ & _ & Hj & _).
    rewrite (Hj t th) in Hfin; [done| |done]. by eapply lookup_lt_Some. }
  assert (t < length (threads s))%nat as Hlt by by eapply lookup_lt_Some.
  simpl.
  assert (good K e sources (step_worker e t s)) as Hg'
    by apply (good_step s (Worker t) Hg).
  assert (spawning (main_pc (step_worker e t s)) = false) as Hs'
    by apply (not_spawning_step s (Worker t) Hs).
  revert Hg' Hs'. unfold step_worker. rewrite Hhalt, Hl, Hfin.
  destruct (todo th) as [|u rest] eqn:Htodo.
  - intros _ _.
    destruct (exec_thread_grows K e sources (replicate n (Worker t))
                (State (main_pc s)
                       (<[t := Thread (vec th) [] (sink th) true]> (threads s))
                       (log s ++ [tool_status e (vec th)]) (output_txt s))
                t (Thread (vec th) [] (sink th) true))
      as (th' & Hl' & _ & _ & _ & Heq).
    { simpl. by apply list_lookup_insert_eq. }
    exists th'. split; [exact Hl'|]. by rewrite Heq.
  - destruct (unit_output e u) as [b|] eqn:Hu.
    + intros Hg' Hs'. eapply IH; [done|done| |].
      * simpl. by apply list_lookup_insert_eq.
      * simpl in *. lia.
    + intros [_ Hnt] _. by destruct Hnt.
Qed.

(** After every worker had its turn, all threads have returned. *)
Lemma workers_done (ts : list nat) s :
  good K e sources s → spawning (main_pc s) = false →
  ∀ t th, t ∈ ts →
    threads (exec s (flat_map (λ t, replicate (length sources + 1) (Worker t)) ts))
      !! t = Some th →
    finished th = true.
Proof.
  revert s. induction ts as [|t0 ts IH]; intros s Hg Hs t th Hin Hl.
  { by apply elem_of_nil in Hin. }
  simpl in Hl. rewrite foldl_app in Hl.
  set (s1 := exec s (replicate (length sources + 1) (Worker t0))) in *.
  assert (good K e sources s1) as Hg1 by by apply good_exec.
  assert (spawning (main_pc s1) = false) as Hs1 by by apply not_spawning_exec.
  destruct (decide (t ∈ ts)) as [Hts|Hts]; [by eapply (IH s1)|].
  apply elem_of_cons in Hin as [->|Hin]; [|done].
  destruct (threads s !! t0) as [th0|] eqn:Hl0.
  - destruct (worker_done (length sources + 1) s t0 th0) as (th1 & Hl1 & Hfin1);
      [done..| |].
    { pose proof (todo_length s t0 th0 Hg Hl0). lia. }
    fold s1 in Hl1.
    destruct (exec_thread_grows K e sources
                (flat_map (λ t, replicate (length sources + 1) (Worker t)) ts)
                s1 t0 th1 Hl1) as (th2 & Hl2 & _ & _ & _ & Heq).
    rewrite Hl2 in Hl. simplify_eq. by rewrite Heq.
  - apply lookup_ge_None in Hl0. apply lookup_lt_Some in Hl.
    pose proof (threads_length s Hg Hs) as Hlen.
    pose proof (threads_length _ (good_exec
      (flat_map (λ t, replicate (length sources + 1) (Worker t)) ts) s1 Hg1)
      (not_spawning_exec _ s1 Hs1)) as Hlen'.
    lia.
Qed.

Lemma step_main_threads s :
  spawning (main_pc s) = false → threads (step_main K sources s) = threads s.
Proof.
  intros Hs. unfold step_main. destruct (main_pc s) as [i|j| | |]; simpl; try done.
  destruct (threads s !! j) as [th|]; [|done]. by destruct (finished th).
Qed.

(** With all threads back, the main thread joins them, unites the
    files and returns 0. *)
Lemma join_done (n : nat) s :
  good K e sources s → spawning (main_pc s) = false →
  (∀ t th, threads s !! t = Some th → finished th = true) →
  (steps_to_return K (main_pc s) ≤ n)%nat →
  main_pc (exec s (replicate n Main)) = Returned 0.
Proof.
  revert s. induction n as [|n IH]; intros s Hg Hs Hall Hn; simpl.
  - destruct Hg as [[_ Hok] Hnt]. unfold pc_ok in Hok.
    destruct (main_pc s) as [i|j| |status|]; simpl in *; try done; try lia.
    by destruct Hok as (-> & _).
  - pose proof (threads_length s Hg Hs) as Hlen.
    apply IH.
    + by apply (good_step s Main).
    + by apply (not_spawning_step s Main).
    + by rewrite step_main_threads.
    + unfold step_main.
      destruct (main_pc s) as [i|j| |status|] eqn:Hpc; simpl in *;
        try done; try lia; try (rewrite Hpc; simpl; lia).
      destruct (threads s !! j) as [th|] eqn:Hl.
      * rewrite (Hall j th Hl). simpl.
        apply lookup_lt_Some in Hl. lia.
      * simpl. lia.
Qed.

Lemma finishing_returns sched :
  main_pc (run K e (Some sources) (sched ++ finishing K sources)) = Returned 0.
Proof.
  unfold run, finishing. rewrite !foldl_app.
  set (s0 := exec initial sched).
  assert (good K e sources s0) as Hg0 by apply good_exec, good_initial.
  set (s1 := exec s0 (replicate (Z.to_nat K + 1) Main)).
  assert (good K e sources s1) as Hg1 by by apply good_exec.
  assert (spawning (main_pc s1) = false) as Hs1.
  { apply spawn_done; [done|]. intros i Hi.
    destruct Hg0 as [[_ Hok] _]. unfold pc_ok in Hok. rewrite Hi in Hok. lia. }
  set (s2 := exec s1 _).
  assert (good K e sources s2) as Hg2 by by apply good_exec.
  assert (spawning (main_pc s2) = false) as Hs2 by by apply not_spawning_exec.
  apply join_done; [done..| |].
  - intros t th Hl. eapply (workers_done (seq 0 (Z.to_nat K)) s1); [done..| |exact Hl].
    apply elem_of_seq. apply lookup_lt_Some in Hl.
    pose proof (threads_length s2 Hg2 Hs2). lia.
  - destruct (main_pc s2); simpl in *; try done; lia.
Qed.
End Completion.

(** X13: no schedule wedges the program. After any schedule whatever,
    the run can still be completed: a fixed continuation (the main
    thread, then every worker, then the main thread again) makes [main]
    return 0 with [output.txt] written. (Paths within [INT_MAX], so
    that no constructor throws.) *)
Theorem run_can_always_complete (K : Z) (e : env) (sources : list str)
    (sched : list actor) :
  1 ≤ K →
  Forall (λ u, Z.of_nat (length u) ≤ Int.INT_MAX) sources →
  let s := run K e (Some sources) (sched ++ finishing K sources) in
  main_pc s = Returned 0 ∧ is_Some (output_txt s) ∧
  (∀ t th, threads s !! t = Some th → finished th = true ∧ todo th = []).
Proof.
  intros HK Hlen s.
  assert (main_pc s = Returned 0) as Hpc.
  { apply finishing_returns; [done|].
    eapply Forall_impl; [done|]. intros u. apply unit_output_total. }
  split; [done|].
  pose proof (invariant_run K e sources HK (sched ++ finishing K sources))
    as [Hth Hok].
  fold s in Hth, Hok. unfold pc_ok in Hok. rewrite Hpc in Hok.
  destruct Hok as (_ & _ & Hj & Hout).
  split; [by rewrite Hout|].
  intros t th Hl.
  assert (finished th = true) as Hfin.
  { eapply Hj; [|done]. by eapply lookup_lt_Some. }
  split; [done|]. by eapply thread_ok_finished; eauto.
Qed.

Lemma run_can_always_complete_witness :
  let s := run kThreadsCount Sample.e (Some Sample.srcs)
               ([Worker 2; Main; Main; Worker 0; Main; Worker 1]
                ++ finishing kThreadsCount Sample.srcs) in
  main_pc s = Returned 0 ∧ is_Some (output_txt s) ∧
  (∀ t th, threads s !! t = Some th → finished th = true ∧ todo th = []).
Proof.
  apply (run_can_always_complete kThreadsCount Sample.e Sample.srcs
           [Worker 2; Main; Main; Worker 0; Main; Worker 1]).
  - unfold kThreadsCount. lia.
  - apply (bool_decide_unpack _). vm_compute. exact I.
Defined.

(** ** The report as a whole *)

Section WholeReport.
Import Shell.
Implicit Types (s input : str) (ls : list str).

Lemma lines_nil s : lines s = [] → s = [].
Proof.
  destruct s as [|c s]; [done|]. simpl.
  destruct (Ascii.eqb c nl); [done|]. by destruct (lines s).
Qed.

Lemma unlines_nil ls : unlines ls = [] → ls = [].
Proof.
  destruct ls as [|l ls]; [done|]. unfold unlines. simpl.
  intros H. apply app_eq_nil in H as [H _]. by apply app_eq_nil in H as [_ ?].
Qed.

Lemma sort_nil input : sort input = [] ↔ input = [].
Proof.
  split; [|by intros ->].
  unfold sort. intros H. apply unlines_nil in H.
  apply lines_nil, Permutation_nil. by rewrite <-H, merge_sort_Permutation.
Qed.

Lemma unit_bytes_nil e (u : str) :
  is_Some (MyAstConsumer.ctor u) →
  unit_bytes e u = [] ↔ analyze e u = None.
Proof.
  intros [name Hname]. unfold unit_bytes, unit_output. rewrite Hname.
  destruct (analyze e u) as [names|]; simpl; [|done].
  split; [|done]. unfold MyAstConsumer.flushToFile.
  intros H. apply app_eq_nil in H as [_ H]. by apply app_eq_nil in H as [_ ?].
Qed.

Lemma run_tool_bytes_nil e (sources : list str) :
  Forall (λ u, is_Some (MyAstConsumer.ctor u)) sources →
  run_tool_bytes e sources = [] ↔ Forall (λ u, analyze e u = None) sources.
Proof.
  unfold run_tool_bytes. induction 1 as [|u sources Hu _ IH]; simpl.
  - split; [by constructor|done].
  - rewrite Forall_cons, <-IH, <-(unit_bytes_nil e u Hu). split.
    + by intros ?%app_eq_nil.
    + by intros [-> ->].
Qed.
End WholeReport.

(** X14: [output.txt] is empty exactly when the front end hands none
    of the units to the consumer, and [main] returns 0 all the same. *)
Theorem report_empty_iff_no_unit (K : Z) (e : env) (sources : list str)
    (sched : list actor) (status : Z) :
  1 ≤ K → Z.of_nat (length sources) ≤ Int.INT_MAX →
  Forall (λ u, Z.of_nat (length u) ≤ Int.INT_MAX) sources →
  main_pc (run K e (Some sources) sched) = Returned status →
  status = 0 ∧
  ∃ r, output_txt (run K e (Some sources) sched) = Some r ∧
       (r = [] ↔ Forall (λ u, analyze e u = None) sources).
Proof.
  intros HK HN Hlen Hpc.
  split; [by eapply run_returned|].
  exists (report e sources). split; [by eapply run_returned_report|].
  unfold report. rewrite sort_nil. apply run_tool_bytes_nil.
  eapply Forall_impl; [done|]. intros u. apply ctor_total.
Qed.

Lemma report_empty_iff_no_unit_witness :
  0 = 0 ∧
  ∃ r, output_txt (run kThreadsCount Sample.e
                       (Some [lit "d/c.cpp"; lit "d/c.cpp"])
                       (sequential kThreadsCount [lit "d/c.cpp"; lit "d/c.cpp"]))
         = Some r ∧
       (r = [] ↔ Forall (λ u, analyze Sample.e u = None)
                        [lit "d/c.cpp"; lit "d/c.cpp"]).
Proof.
  apply (report_empty_iff_no_unit kThreadsCount Sample.e
           [lit "d/c.cpp"; lit "d/c.cpp"]
           (sequential kThreadsCount [lit "d/c.cpp"; lit "d/c.cpp"]) 0).
  - unfold kThreadsCount. lia.
  - vm_compute. discriminate.
  - apply (bool_decide_unpack _). vm_compute. exact I.
  - vm_compute. reflexivity.
Defined.

(** X15: the number of threads does not show in the result: for any
    two thread counts, the sinks concatenated in thread order are the
    bytes one thread alone would write for the whole list, and the two
    runs write the same [output.txt]. *)
Theorem report_independent_of_thread_count (K1 K2 : Z) (e : env)
    (sources : list str) (sched1 sched2 : list actor) (status1 status2 : Z) :
  1 ≤ K1 → 1 ≤ K2 → Z.of_nat (length sources) ≤ Int.INT_MAX →
  main_pc (run K1 e (Some sources) sched1) = Returned status1 →
  main_pc (run K2 e (Some sources) sched2) = Returned status2 →
  Shell.cat (sink <$> threads (run K1 e (Some sources) sched1)) =
    run_tool_bytes e sources ∧
  Shell.cat (sink <$> threads (run K2 e (Some sources) sched2)) =
    run_tool_bytes e sources ∧
  output_txt (run K1 e (Some sources) sched1) =
    output_txt (run K2 e (Some sources) sched2).
Proof.
  intros HK1 HK2 HN H1 H2.
  assert (∀ K sched status, 1 ≤ K →
            main_pc (run K e (Some sources) sched) = Returned status →
            Shell.cat (sink <$> threads (run K e (Some sources) sched)) =
              run_tool_bytes e sources) as Hcat.
  { intros K sched status HK Hpc.
    pose proof (invariant_run K e sources HK sched) as Hinv.
    pose proof Hinv as [_ Hok]. unfold pc_ok in Hok. rewrite Hpc in Hok.
    destruct Hok as (_ & Hlen & Hj & _).
    rewrite (sinks_complete K e sources) by done. by apply cat_sinks. }
  split; [by eapply Hcat|]. split; [by eapply Hcat|].
  by rewrite (run_returned_report K1 e sources HK1 sched1 status1),
             (run_returned_report K2 e sources HK2 sched2 status2).
Qed.

Lemma report_independent_of_thread_count_witness :
  Shell.cat (sink <$> threads (run kThreadsCount Sample.e (Some Sample.srcs)
                                   Sample.interleaved)) =
    run_tool_bytes Sample.e Sample.srcs ∧
  Shell.cat (sink <$> threads (run 1 Sample.e (Some Sample.srcs)
                                   (sequential 1 Sample.srcs))) =
    run_tool_bytes Sample.e Sample.srcs ∧
  output_txt (run kThreadsCount Sample.e (Some Sample.srcs) Sample.interleaved) =
    output_txt (run 1 Sample.e (Some Sample.srcs) (sequential 1 Sample.srcs)).
Proof.
  apply (report_independent_of_thread_count kThreadsCount 1 Sample.e Sample.srcs
           Sample.interleaved (sequential 1 Sample.srcs) 0 0).
  - unfold kThreadsCount. lia.
  - lia.
  - vm_compute. discriminate.
  - vm_compute. reflexivity.
  - vm_compute. reflexivity.
Defined.

(** X16: the order of the sources on the command line does not show in
    [output.txt]: two runs over permutations of the same list write the
    same bytes (with [sort] ordering whole lines byte-wise, and paths
    and names free of newlines). *)
Theorem report_independent_of_source_order (K : Z) (e : env)
    (sources sources' : list str) (sched sched' : list actor)
    (status status' : Z) :
  1 ≤ K → Z.of_nat (length sources) ≤ Int.INT_MAX →
  sources ≡ₚ sources' → Forall (newline_free e) sources →
  main_pc (run K e (Some sources) sched) = Returned status →
  main_pc (run K e (Some sources') sched') = Returned status' →
  output_txt (run K e (Some sources) sched) =
    output_txt (run K e (Some sources') sched').
Proof.
  intros HK HN Hperm Hnl Hpc Hpc'.
  assert (Z.of_nat (length sources') ≤ Int.INT_MAX) as HN' by by rewrite <-Hperm.
  assert (Forall (newline_free e) sources') as Hnl' by by rewrite <-Hperm.
  rewrite (run_returned_report K e sources HK sched status),
          (run_returned_report K e sources' HK sched' status') by done.
  f_equal. unfold report. apply sort_perm_invariant.
  rewrite !lines_run_tool_bytes by done. unfold records. by rewrite Hperm.
Qed.

Lemma report_independent_of_source_order_witness :
  output_txt (run kThreadsCount Sample.e (Some Sample.srcs) Sample.interleaved) =
    output_txt (run kThreadsCount Sample.e (Some (reverse Sample.srcs))
                    (sequential kThreadsCount (reverse Sample.srcs))).
Proof.
  apply (report_independent_of_source_order kThreadsCount Sample.e Sample.srcs
           (reverse Sample.srcs) Sample.interleaved
           (sequential kThreadsCount (reverse Sample.srcs)) 0 0).
  - unfold kThreadsCount. lia.
  - vm_compute. discriminate.
  - apply (bool_decide_unpack _). vm_compute. exact I.
  - apply (bool_decide_unpack _). vm_compute. exact I.
  - vm_compute. reflexivity.
  - vm_compute. reflexivity.
Defined.

Lemma Forall_shard {A} (P : A → Prop) (K : Z) (sources : list A) (i : Z) :
  Forall P sources → Forall P (shard K sources i).
Proof. intros H. unfold shard, range. by apply Forall_take, Forall_drop. Qed.

(** X17: at every moment of a run a sink is the concatenation, in the
    order of the source list, of the records of the units its thread
    has gone through, each followed by a newline: the files are filled
    in input order, not sorted. When no path and no collected name
    holds a newline, the lines of the sink are exactly those records,
    one line each. *)
Theorem sink_holds_records_in_order (K : Z) (e : env) (sources : list str)
    (sched : list actor) (t : nat) (th : thread) :
  1 ≤ K →
  threads (run K e (Some sources) sched) !! t = Some th →
  ∃ processed,
    shard K sources (Z.of_nat t) = processed ++ todo th ∧
    sink th = flat_map (λ r, r ++ [Shell.nl]) (records e processed) ∧
    (Forall (newline_free e) sources →
     Shell.lines (sink th) = records e processed).
Proof.
  intros HK Hl.
  destruct (invariant_run K e sources HK sched) as [Hth _].
  destruct (Hth t th Hl) as (_ & (processed & Hsplit & Hsink) & _).
  exists processed. split; [done|]. split.
  - rewrite Hsink. clear. unfold run_tool_bytes, records.
    induction processed as [|u processed IH]; [done|]. simpl.
    rewrite unit_bytes_record, IH.
    by destruct (record_of e u).
  - intros Hnl. rewrite Hsink. apply lines_run_tool_bytes.
    pose proof (Forall_shard _ K sources (Z.of_nat t) Hnl) as Hall.
    rewrite Hsplit, Forall_app in Hall. apply Hall.
Qed.

Lemma sink_holds_records_in_order_witness :
  ∃ processed,
    shard kThreadsCount Sample.srcs (Z.of_nat 3) =
      processed ++ todo (Thread [lit "e.cpp"; lit "q/0.cpp"] [lit "q/0.cpp"]
                           (lit "e.cpp apple Be Zeta" ++ [Shell.nl]) false) ∧
    sink (Thread [lit "e.cpp"; lit "q/0.cpp"] [lit "q/0.cpp"]
            (lit "e.cpp apple Be Zeta" ++ [Shell.nl]) false) =
      flat_map (λ r, r ++ [Shell.nl]) (records Sample.e processed) ∧
    (Forall (newline_free Sample.e) Sample.srcs →
     Shell.lines (sink (Thread [lit "e.cpp"; lit "q/0.cpp"] [lit "q/0.cpp"]
                          (lit "e.cpp apple Be Zeta" ++ [Shell.nl]) false)) =
       records Sample.e processed).
Proof.
  apply (sink_holds_records_in_order kThreadsCount Sample.e Sample.srcs
           [Main; Main; Main; Main; Worker 3] 3).
  - unfold kThreadsCount. lia.
  - vm_compute. reflexivity.
Defined.
